(** * Sprite animation and orientation: the two [SpriteCharacter] components

    Shallow embedding of the per-frame logic of
    - [src/components/character/SpriteCharacter.tsx] (8x4 atlas), module
      [Character], and
    - the [SpriteCharacter] component carried by
      [src/scenes/IsometricSandboxScene.tsx] (12x12 atlas), module [Scene].

    Numbers.  A JavaScript [number] that holds a time, a length or a texture
    coordinate is modelled as an exact rational ([Q]); a [number] that holds
    an array index, a frame count, an atlas row or column is modelled as an
    integer ([nat] for counters that start at [0] and are only incremented or
    reset, [Z] for table entries).  Rounding of binary64 arithmetic is not
    part of this model: every statement about elapsed time below is a
    statement about exact arithmetic, where [0.3] is three times [0.1]
    (neither is a binary64 value, and the sums and differences of their
    nearest doubles are rounded).

    The exact model carries the branch structure, the bounds and the
    invariants of the callbacks, which hold whatever number of times the
    frame loop runs.  How many times it runs does depend on rounding:
    module [Binary64] gives the frame clock of both components on binary64
    numbers, with the source's operations in the source's order, and the
    statements about the number of frames advanced are made there. *)

From Stdlib Require Import QArith Qabs Qround ZArith List Lia Lqa Bool.
From Stdlib Require String PrimFloat FloatOps SpecFloat.
Import ListNotations.

Open Scope Q_scope.

(** ** JavaScript comparison operators on numbers *)

Definition js_le (a b : Q) : bool := Qle_bool a b.
Definition js_ge (a b : Q) : bool := Qle_bool b a.
Definition js_lt (a b : Q) : bool := negb (Qle_bool b a).
Definition js_gt (a b : Q) : bool := negb (Qle_bool a b).

(** ** three.js [Vector3]: the two methods the components call *)

Module Three.

Record Vector3 : Type := mkVector3 { x : Q; y : Q; z : Q }.

(** [Vector3.lengthSq()] *)
Definition lengthSq (v : Vector3) : Q :=
  x v * x v + y v * y v + z v * z v.

(** [Vector3.dot(w)] *)
Definition dot (v w : Vector3) : Q :=
  x v * x w + y v * y w + z v * z w.

(** [Vector3.multiplyScalar(k)], as a pure function *)
Definition multiplyScalar (k : Q) (v : Vector3) : Vector3 :=
  mkVector3 (x v * k) (y v * k) (z v * k).

End Three.
Import Three.

(** ** Types shared by both components *)

Inductive FacingDirection : Type := south | west | east | north.

(** [CharacterAnimationStatus] of [bvhecctrl]; its members are the keys of
    [ANIMATION_CONFIG] and of every [sequences] table. *)
Inductive CharacterAnimationStatus : Type :=
| IDLE | WALK | RUN | JUMP_START | JUMP_IDLE | JUMP_FALL | JUMP_LAND.

Definition FacingDirection_eq_dec (a b : FacingDirection) : {a = b} + {a <> b}.
Proof. decide equality. Defined.

Definition status_eq_dec (a b : CharacterAnimationStatus) : {a = b} + {a <> b}.
Proof. decide equality. Defined.

(** [previousStatusRef.current !== animationStatus] *)
Definition status_neq (a b : CharacterAnimationStatus) : bool :=
  if status_eq_dec a b then false else true.

(** The global [characterStatus] of [bvhecctrl], read once per frame. *)
Record CharacterStatus : Type := mkCharacterStatus {
  movingDir : Vector3;
  inputDir : Vector3
}.

Definition WORLD_FORWARD : Vector3 := mkVector3 0 0 1.
Definition WORLD_RIGHT : Vector3 := mkVector3 1 0 0.

(** ** [resolveFacingDirection] (the same text in both files) *)

Definition resolveFacingDirection (movingDir : Vector3) : FacingDirection :=
  if js_lt (lengthSq movingDir) 1e-6 then south
  else
    let projectionForward := dot movingDir WORLD_FORWARD in
    let projectionRight := dot movingDir WORLD_RIGHT in
    if js_gt (Qabs projectionRight) (Qabs projectionForward) then
      (if js_gt projectionRight 0 then east else west)
    else
      (if js_gt projectionForward 0 then south else north).

(** Step 1 of the frame callback: choose the vector to resolve from and
    overwrite the stored direction only for a meaningful vector. *)
Definition updateDirection (cs : CharacterStatus) (current : FacingDirection)
  : FacingDirection :=
  let target :=
    if js_gt (lengthSq (movingDir cs)) 1e-6 then movingDir cs else inputDir cs in
  if js_gt (lengthSq target) 1e-6 then resolveFacingDirection target
  else current.

(** ** The frame-advance loop

    [while (elapsed >= frameDuration) { elapsed -= frameDuration;
    frameIndex = next(frameIndex) }], with the body's index update [next]
    supplied by each component.  [fuel] bounds the number of iterations;
    [None] means the bound was hit.  This is the loop in exact arithmetic;
    [Binary64.frameLoop] is the same loop on doubles. *)
Fixpoint frameLoop (next : nat -> nat) (frameDuration : Q) (fuel : nat)
  (frameIndex : nat) (elapsed : Q) : option (nat * Q) :=
  if js_ge elapsed frameDuration then
    match fuel with
    | O => None
    | S fuel' =>
        frameLoop next frameDuration fuel' (next frameIndex)
          (elapsed - frameDuration)
    end
  else Some (frameIndex, elapsed).

(** Number of whole frame durations contained in [elapsed]:
    [floor (elapsed / frameDuration)]. *)
Definition wholeFrames (elapsed frameDuration : Q) : nat :=
  Z.to_nat (Qfloor (elapsed / frameDuration)).

(** Every iteration removes one [frameDuration > 0] from [elapsed], so the
    loop body runs at most [wholeFrames] times; one more unit pays for the
    last, failing test. *)
Definition loopBound (elapsed frameDuration : Q) : nat :=
  S (wholeFrames elapsed frameDuration).

(** ** The 12x12 component of [IsometricSandboxScene.tsx] *)

Module Scene.

Record AnimationSequence : Type := mkSequence {
  frames : list Z;
  fps : Q;
  loop : bool
}.

(** [Partial<Record<CharacterAnimationStatus, AnimationSequence>> &
    { IDLE: AnimationSequence }]: [IDLE] is required, the rest optional. *)
Record Sequences : Type := mkSequences {
  seqIDLE : AnimationSequence;
  seqWALK : option AnimationSequence;
  seqRUN : option AnimationSequence;
  seqJUMP_START : option AnimationSequence;
  seqJUMP_IDLE : option AnimationSequence;
  seqJUMP_FALL : option AnimationSequence;
  seqJUMP_LAND : option AnimationSequence
}.

(** [sequences[status]]; [None] is JavaScript's [undefined]. *)
Definition lookupSequence (s : Sequences) (status : CharacterAnimationStatus)
  : option AnimationSequence :=
  match status with
  | IDLE => Some (seqIDLE s)
  | WALK => seqWALK s
  | RUN => seqRUN s
  | JUMP_START => seqJUMP_START s
  | JUMP_IDLE => seqJUMP_IDLE s
  | JUMP_FALL => seqJUMP_FALL s
  | JUMP_LAND => seqJUMP_LAND s
  end.

Record SpriteDefinition : Type := mkSpriteDefinition {
  row : Z;
  sequences : Sequences
}.

Definition SPRITE_COLUMNS : Z := 12.
Definition SPRITE_ROWS : Z := 12.

(** The four entries of [SPRITE_MAP] carry the same seven sequences. *)
Definition spriteSequences : Sequences :=
  mkSequences
    (mkSequence [6; 7; 8]%Z 3 true)
    (Some (mkSequence [0; 1; 2; 3; 4; 5]%Z 10 true))
    (Some (mkSequence [0; 1; 2; 3; 4; 5]%Z 10 true))
    (Some (mkSequence [7]%Z 1 false))
    (Some (mkSequence [7]%Z 1 false))
    (Some (mkSequence [7]%Z 1 false))
    (Some (mkSequence [7]%Z 1 false)).

Definition SPRITE_MAP (facing : FacingDirection) : SpriteDefinition :=
  match facing with
  | south => mkSpriteDefinition 0 spriteSequences
  | north => mkSpriteDefinition 1 spriteSequences
  | west => mkSpriteDefinition 2 spriteSequences
  | east => mkSpriteDefinition 3 spriteSequences
  end.

(** The refs of the component: [directionRef], [elapsedRef],
    [frameIndexRef], [previousStatusRef]. *)
Record Refs : Type := mkRefs {
  directionRef : FacingDirection;
  elapsedRef : Q;
  frameIndexRef : nat;
  previousStatusRef : CharacterAnimationStatus
}.

(** [texture.offset]; [offsetX = None] stands for the [NaN] that
    [undefined % SPRITE_COLUMNS] yields when [frames[frameIndex]] is out of
    bounds. *)
Record TextureOffset : Type := mkOffset {
  offsetX : option Q;
  offsetY : Q
}.

(** Step 2: a status change resets the animation. *)
Definition handleStatusChange (animationStatus : CharacterAnimationStatus)
  (refs : Refs) : Refs :=
  if status_neq (previousStatusRef refs) animationStatus then
    mkRefs (directionRef refs) 0 0%nat animationStatus
  else refs.

(** Body of the [while] loop: the index that follows [frameIndex]. *)
Definition nextFrameIndex (sequence : AnimationSequence) (frameIndex : nat)
  : nat :=
  let nextIndex := (frameIndex + 1)%nat in
  if (length (frames sequence) <=? nextIndex)%nat then
    (if loop sequence then 0%nat else (length (frames sequence) - 1)%nat)
  else nextIndex.

(** Step 4: static pose, or accumulate [delta] and run the loop. *)
Definition advanceFrame (sequence : AnimationSequence) (delta : Q)
  (frameIndex : nat) (elapsed : Q) : option (nat * Q) :=
  if (length (frames sequence) <=? 1)%nat || js_le (fps sequence) 0 then
    Some (0%nat, 0)
  else
    let elapsed := elapsed + delta in
    let frameDuration := 1 / fps sequence in
    frameLoop (nextFrameIndex sequence) frameDuration
      (loopBound elapsed frameDuration) frameIndex elapsed.

(** Step 5: the texture offset of a row and a frame value. *)
Definition atlasOffset (row : Z) (frameValue : option Z) : TextureOffset :=
  let frameColumn := option_map (fun f => Z.rem f SPRITE_COLUMNS) frameValue in
  mkOffset
    (option_map (fun c => inject_Z c / inject_Z SPRITE_COLUMNS) frameColumn)
    (inject_Z row / inject_Z SPRITE_ROWS).

Section Engine.

(** The sequence table; the component uses [SPRITE_MAP]. *)
Variable spriteMap : FacingDirection -> SpriteDefinition.

(** [definition.sequences[status] ?? definition.sequences.IDLE] *)
Definition getSequenceIn (facing : FacingDirection)
  (status : CharacterAnimationStatus) : AnimationSequence :=
  let definition := spriteMap facing in
  match lookupSequence (sequences definition) status with
  | Some sequence => sequence
  | None => seqIDLE (sequences definition)
  end.

(** The callback given to [useFrame]: the refs after the frame and the
    texture offset it sets; [None] only if the loop bound is hit. *)
Definition useFrameIn (cs : CharacterStatus)
  (animationStatus : CharacterAnimationStatus) (delta : Q) (refs : Refs)
  : option (Refs * TextureOffset) :=
  let direction := updateDirection cs (directionRef refs) in
  let refs := handleStatusChange animationStatus refs in
  let sequence := getSequenceIn direction animationStatus in
  match advanceFrame sequence delta (frameIndexRef refs) (elapsedRef refs) with
  | None => None
  | Some (frameIndex, elapsed) =>
      Some (mkRefs direction elapsed frameIndex (previousStatusRef refs),
            atlasOffset (row (spriteMap direction))
              (nth_error (frames sequence) frameIndex))
  end.

End Engine.

(** The frame clock over several frames that play the same sequence. *)
Fixpoint advanceFrames (sequence : AnimationSequence) (deltas : list Q)
  (frameIndex : nat) (elapsed : Q) : option (nat * Q) :=
  match deltas with
  | [] => Some (frameIndex, elapsed)
  | delta :: deltas' =>
      match advanceFrame sequence delta frameIndex elapsed with
      | None => None
      | Some (frameIndex', elapsed') =>
          advanceFrames sequence deltas' frameIndex' elapsed'
      end
  end.

Definition getSequence := getSequenceIn SPRITE_MAP.
Definition useFrame := useFrameIn SPRITE_MAP.

(** The refs at mount: [useRef("south")], [useRef(0)], [useRef(0)],
    [useRef(animationStatus)]. *)
Definition initialRefs (animationStatus : CharacterAnimationStatus) : Refs :=
  mkRefs south 0 0%nat animationStatus.

(** The refs the component can hold: those at mount, and those left by a
    frame run from refs it can hold. *)
Inductive reachable : Refs -> Prop :=
| reachable_mount : forall animationStatus,
    reachable (initialRefs animationStatus)
| reachable_frame : forall cs animationStatus delta refs refs' offset,
    reachable refs ->
    useFrame cs animationStatus delta refs = Some (refs', offset) ->
    reachable refs'.

(** [frameIndexRef] indexes the sequence in play. *)
Definition frameIndexInBounds (refs : Refs) : Prop :=
  (frameIndexRef refs <
     length (frames (getSequence (directionRef refs) (previousStatusRef refs))))%nat.

(** The callback over several frames that carry the same animation status;
    each frame brings its own [characterStatus] and [delta]. *)
Fixpoint useFrames (animationStatus : CharacterAnimationStatus)
  (inputs : list (CharacterStatus * Q)) (refs : Refs) : option Refs :=
  match inputs with
  | [] => Some refs
  | (cs, delta) :: inputs' =>
      match useFrame cs animationStatus delta refs with
      | None => None
      | Some (refs', _) => useFrames animationStatus inputs' refs'
      end
  end.

End Scene.

(** ** The 8x4 component of [components/character/SpriteCharacter.tsx] *)

Module Character.

Record AnimationConfig : Type := mkConfig {
  frameCount : nat;
  speedFps : Q
}.

Definition SPRITE_COLUMNS : nat := 8.
Definition SPRITE_ROWS : Z := 4.

Definition DIRECTION_ROW (facing : FacingDirection) : Z :=
  match facing with
  | south => 0
  | west => 1
  | east => 2
  | north => 3
  end.

Definition ANIMATION_CONFIG (status : CharacterAnimationStatus)
  : AnimationConfig :=
  match status with
  | IDLE => mkConfig 4 2
  | WALK => mkConfig 8 8
  | RUN => mkConfig 8 12
  | JUMP_START => mkConfig 1 1
  | JUMP_IDLE => mkConfig 2 3
  | JUMP_FALL => mkConfig 2 3
  | JUMP_LAND => mkConfig 2 6
  end.

Record Refs : Type := mkRefs {
  directionRef : FacingDirection;
  frameIndexRef : nat;
  elapsedRef : Q;
  previousStatusRef : CharacterAnimationStatus
}.

Record TextureOffset : Type := mkOffset {
  offsetX : Q;
  offsetY : Q
}.

Definition handleStatusChange (animationStatus : CharacterAnimationStatus)
  (refs : Refs) : Refs :=
  if status_neq (previousStatusRef refs) animationStatus then
    mkRefs (directionRef refs) 0%nat 0 animationStatus
  else refs.

(** [(frameIndexRef.current + 1) % frameCount] *)
Definition nextFrameIndex (frameCount frameIndex : nat) : nat :=
  ((frameIndex + 1) mod frameCount)%nat.

Definition advanceFrame (config : AnimationConfig) (delta : Q)
  (frameIndex : nat) (elapsed : Q) : option (nat * Q) :=
  if (frameCount config <=? 1)%nat || js_le (speedFps config) 0 then
    Some (0%nat, 0)
  else
    let elapsed := elapsed + delta in
    let frameDuration := 1 / speedFps config in
    frameLoop (nextFrameIndex (frameCount config)) frameDuration
      (loopBound elapsed frameDuration) frameIndex elapsed.

Definition atlasOffset (rowIndex : Z) (frameIndex : nat) : TextureOffset :=
  let columnIndex := (frameIndex mod SPRITE_COLUMNS)%nat in
  mkOffset
    (inject_Z (Z.of_nat columnIndex) / inject_Z (Z.of_nat SPRITE_COLUMNS))
    (1 - (inject_Z rowIndex + 1) / inject_Z SPRITE_ROWS).

Definition useFrame (cs : CharacterStatus)
  (animationStatus : CharacterAnimationStatus) (delta : Q) (refs : Refs)
  : option (Refs * TextureOffset) :=
  let refs := handleStatusChange animationStatus refs in
  let direction := updateDirection cs (directionRef refs) in
  match advanceFrame (ANIMATION_CONFIG animationStatus) delta
          (frameIndexRef refs) (elapsedRef refs) with
  | None => None
  | Some (frameIndex, elapsed) =>
      Some (mkRefs direction frameIndex elapsed (previousStatusRef refs),
            atlasOffset (DIRECTION_ROW direction) frameIndex)
  end.

Definition initialRefs (animationStatus : CharacterAnimationStatus) : Refs :=
  mkRefs south 0%nat 0 animationStatus.

(** The refs the component can hold: those at mount, and those left by a
    frame run from refs it can hold. *)
Inductive reachable : Refs -> Prop :=
| reachable_mount : forall animationStatus,
    reachable (initialRefs animationStatus)
| reachable_frame : forall cs animationStatus delta refs refs' offset,
    reachable refs ->
    useFrame cs animationStatus delta refs = Some (refs', offset) ->
    reachable refs'.

(** [frameIndexRef] is below the frame count of the status in play. *)
Definition frameIndexInBounds (refs : Refs) : Prop :=
  (frameIndexRef refs < frameCount (ANIMATION_CONFIG (previousStatusRef refs)))%nat.

End Character.

(** ** [useFollowCamera] and its use by the scene *)

Module FollowCamera.

(** A three.js [Group], of which the hook reads [position]. *)
Record Group : Type := mkGroup { position : Vector3 }.

(** [BVHEcctrlApi], of which the scene reads the optional [group]. *)
Record BVHEcctrlApi : Type := mkApi { group : option Group }.

(** A call [cameraControls.moveTo(x, y, z, enableTransition)]. *)
Record MoveTo : Type := mkMoveTo {
  toX : Q;
  toY : Q;
  toZ : Q;
  enableTransition : bool
}.

Section Hook.

(** The drei [CameraControls] instance; the hook tests it against [null] and
    calls its [moveTo]. *)
Variable CameraControls : Type.

(** The callback the hook gives to [useFrame]: the [moveTo] call it makes,
    [None] when it returns without one. *)
Definition followFrame (enabled : bool) (offset : Q * Q * Q)
  (cameraControls : option CameraControls) (target : option Group)
  : option MoveTo :=
  if negb enabled then None
  else
    match cameraControls, target with
    | Some _, Some target =>
        let '(offsetX, offsetY, offsetZ) := offset in
        Some (mkMoveTo (x (position target) + offsetX)
                (y (position target) + offsetY)
                (z (position target) + offsetZ) true)
    | _, _ => None
    end.

(** [() => controllerRef.current?.group ?? null] *)
Definition resolveTarget (controllerRef : option BVHEcctrlApi) : option Group :=
  match controllerRef with
  | Some api => group api
  | None => None
  end.

(** The scene's [useFollowCamera(cameraControlsRef, resolveTarget)], with
    the default options [offset = [0, 0.3, 0]] and [enabled = true]. *)
Definition sceneFollowFrame (cameraControlsRef : option CameraControls)
  (controllerRef : option BVHEcctrlApi) : option MoveTo :=
  followFrame true (0, 0.3, 0) cameraControlsRef (resolveTarget controllerRef).

End Hook.

End FollowCamera.

(** ** [CozyTavernMap]: shadows on every mesh of the loaded scene *)

Module TavernMap.

(** A three.js [Object3D] of the loaded scene: whether it is a [Mesh], its
    two shadow flags and its children. *)
#[warnings="-register-all"]
Inductive Object3D : Type :=
| mkObject (isMesh castShadow receiveShadow : bool) (children : list Object3D).

(** [scene.traverse(child => { if (child instanceof Mesh) {
    child.castShadow = true; child.receiveShadow = true } })]: three.js
    calls the callback on the object, then traverses each child. *)
Fixpoint enableShadows (object : Object3D) : Object3D :=
  match object with
  | mkObject isMesh castShadow receiveShadow children =>
      mkObject isMesh
        (if isMesh then true else castShadow)
        (if isMesh then true else receiveShadow)
        (map enableShadows children)
  end.

(** Every mesh of the tree casts and receives shadows. *)
Fixpoint meshesShadowed (object : Object3D) : bool :=
  match object with
  | mkObject isMesh castShadow receiveShadow children =>
      (if isMesh then castShadow && receiveShadow else true)
      && forallb meshesShadowed children
  end.

(** The tree with the shadow flags of its meshes erased: what
    [enableShadows] must leave alone. *)
Fixpoint withoutMeshShadows (object : Object3D) : Object3D :=
  match object with
  | mkObject isMesh castShadow receiveShadow children =>
      mkObject isMesh
        (if isMesh then false else castShadow)
        (if isMesh then false else receiveShadow)
        (map withoutMeshShadows children)
  end.

End TavernMap.

(** ** [config-overrides.js] *)

Module ConfigOverrides.

Import String.

(** An entry of [ignoreWarnings]: the sources of its two patterns. *)
Record IgnoreWarning : Type := mkIgnoreWarning {
  warningModule : String.string;
  warningMessage : String.string
}.

(** The value [override] assigns to [config.ignoreWarnings]. *)
Definition sourceMapWarnings : list IgnoreWarning :=
  [ mkIgnoreWarning "@mediapipe\/tasks-vision" "Failed to parse source map";
    mkIgnoreWarning "bvhecctrl" "Failed to parse source map" ].

Section Override.

(** A webpack configuration as [override] sees it.  The fields it does not
    name are carried in the [...Rest] components, empty in the object [{}];
    a rule of the configuration that [override] did not push is a
    [RuleSetRule].  A field typed as an optional object or array is an
    [option]: [None] is [undefined]. *)
Variables ResolveRest ModuleRest ConfigRest RuleSetRule : Type.
Variable emptyResolveRest : ResolveRest.
Variable emptyModuleRest : ModuleRest.

Inductive Rule : Type :=
| configRule (rule : RuleSetRule)
| relaxEsmRule. (* { test: /\.m?js$/, resolve: { fullySpecified: false } } *)

Record Resolve : Type := mkResolve {
  fullySpecified : option bool;
  resolveRest : ResolveRest
}.

Record ModuleOptions : Type := mkModuleOptions {
  rules : option (list Rule);
  moduleRest : ModuleRest
}.

Record Config : Type := mkConfig {
  resolve : option Resolve;
  module : option ModuleOptions;
  ignoreWarnings : option (list IgnoreWarning);
  configRest : ConfigRest
}.

(** [if (!config.resolve) { config.resolve = {}; }] *)
Definition ensureResolve (config : Config) : Config :=
  match resolve config with
  | Some _ => config
  | None =>
      mkConfig (Some (mkResolve None emptyResolveRest)) (module config)
        (ignoreWarnings config) (configRest config)
  end.

(** [config.resolve.fullySpecified = false]; [None] is the [TypeError] of
    an assignment through [undefined]. *)
Definition setFullySpecified (config : Config) : option Config :=
  match resolve config with
  | Some r =>
      Some (mkConfig (Some (mkResolve (Some false) (resolveRest r)))
              (module config) (ignoreWarnings config) (configRest config))
  | None => None
  end.

(** [Array.isArray(config.module?.rules)] *)
Definition rulesIsArray (config : Config) : bool :=
  match module config with
  | Some m => match rules m with Some _ => true | None => false end
  | None => false
  end.

(** [if (!Array.isArray(config.module?.rules)) {
      config.module = config.module || {};
      config.module.rules = config.module.rules || []; }] *)
Definition ensureRules (config : Config) : Config :=
  if negb (rulesIsArray config) then
    let m :=
      match module config with
      | Some m => m
      | None => mkModuleOptions None emptyModuleRest
      end in
    let rs := match rules m with Some rs => rs | None => [] end in
    mkConfig (resolve config) (Some (mkModuleOptions (Some rs) (moduleRest m)))
      (ignoreWarnings config) (configRest config)
  else config.

(** [config.module.rules.push({...})]; [None] is the [TypeError] of a call
    through [undefined]. *)
Definition pushRule (config : Config) : option Config :=
  match module config with
  | Some m =>
      match rules m with
      | Some rs =>
          Some (mkConfig (resolve config)
                  (Some (mkModuleOptions (Some (rs ++ [relaxEsmRule]))
                           (moduleRest m)))
                  (ignoreWarnings config) (configRest config))
      | None => None
      end
  | None => None
  end.

(** [config.ignoreWarnings = [...]] *)
Definition setIgnoreWarnings (config : Config) : Config :=
  mkConfig (resolve config) (module config) (Some sourceMapWarnings)
    (configRest config).

(** [module.exports = function override(config)]: the configuration it
    returns, [None] if a statement throws. *)
Definition override (config : Config) : option Config :=
  match setFullySpecified (ensureResolve config) with
  | None => None
  | Some config =>
      match pushRule (ensureRules config) with
      | None => None
      | Some config => Some (setIgnoreWarnings config)
      end
  end.

(** The rules of a configuration, none when the field is absent. *)
Definition rulesOf (config : Config) : list Rule :=
  match module config with
  | Some m => match rules m with Some rs => rs | None => [] end
  | None => []
  end.

End Override.

End ConfigOverrides.

(** ** The frame clock on binary64 numbers

    [delta], [elapsedRef.current], [fps] and [frameDuration] as the doubles
    they are: [+=], [1 / fps], [>=] and [-=] are the binary64 operations,
    each rounded to nearest.  The loop takes its bound [fuel] as an
    argument; [None] means the bound was hit. *)

Module Binary64.

Import PrimFloat.

Fixpoint frameLoop (next : nat -> nat) (frameDuration : PrimFloat.float)
  (fuel : nat) (frameIndex : nat) (elapsed : PrimFloat.float)
  : option (nat * PrimFloat.float) :=
  if PrimFloat.leb frameDuration elapsed then
    match fuel with
    | O => None
    | S fuel' =>
        frameLoop next frameDuration fuel' (next frameIndex)
          (PrimFloat.sub elapsed frameDuration)
    end
  else Some (frameIndex, elapsed).

(** [AnimationSequence] of the 12x12 component. *)
Record AnimationSequence : Type := mkSequence {
  frames : list Z;
  fps : PrimFloat.float;
  loop : bool
}.

Definition nextFrameIndex (sequence : AnimationSequence) (frameIndex : nat)
  : nat :=
  let nextIndex := (frameIndex + 1)%nat in
  if (length (frames sequence) <=? nextIndex)%nat then
    (if loop sequence then 0%nat else (length (frames sequence) - 1)%nat)
  else nextIndex.

(** Step 4 of the 12x12 callback. *)
Definition sceneAdvanceFrame (fuel : nat) (sequence : AnimationSequence)
  (delta : PrimFloat.float) (frameIndex : nat) (elapsed : PrimFloat.float)
  : option (nat * PrimFloat.float) :=
  if (length (frames sequence) <=? 1)%nat || PrimFloat.leb (fps sequence) 0%float then
    Some (0%nat, 0%float)
  else
    let elapsed := PrimFloat.add elapsed delta in
    let frameDuration := PrimFloat.div 1%float (fps sequence) in
    frameLoop (nextFrameIndex sequence) frameDuration fuel frameIndex elapsed.

(** [AnimationConfig] of the 8x4 component. *)
Record AnimationConfig : Type := mkConfig {
  frameCount : nat;
  speedFps : PrimFloat.float
}.








End Binary64.

(** * Properties *)

(** ** Comparison operators against the order of [Q] *)

Lemma js_le_iff (a b : Q) : js_le a b = true <-> a <= b.
Proof. unfold js_le. apply Qle_bool_iff. Qed.

Lemma js_ge_iff (a b : Q) : js_ge a b = true <-> b <= a.
Proof. unfold js_ge. apply Qle_bool_iff. Qed.

Lemma js_lt_iff (a b : Q) : js_lt a b = true <-> a < b.
Proof.
  unfold js_lt. rewrite negb_true_iff, <- not_true_iff_false, Qle_bool_iff.
  split; [apply Qnot_le_lt | apply Qlt_not_le].
Qed.

Lemma js_gt_iff (a b : Q) : js_gt a b = true <-> b < a.
Proof.
  unfold js_gt. rewrite negb_true_iff, <- not_true_iff_false, Qle_bool_iff.
  split; [apply Qnot_le_lt | apply Qlt_not_le].
Qed.

Lemma js_lt_false_iff (a b : Q) : js_lt a b = false <-> b <= a.
Proof.
  rewrite <- not_true_iff_false, js_lt_iff.
  split; [apply Qnot_lt_le | apply Qle_not_lt].
Qed.

Lemma js_gt_false_iff (a b : Q) : js_gt a b = false <-> a <= b.
Proof.
  rewrite <- not_true_iff_false, js_gt_iff.
  split; [apply Qnot_lt_le | apply Qle_not_lt].
Qed.

Lemma js_ge_false_iff (a b : Q) : js_ge a b = false <-> a < b.
Proof.
  rewrite <- not_true_iff_false, js_ge_iff.
  split; [apply Qnot_le_lt | apply Qlt_not_le].
Qed.

Lemma js_le_false_iff (a b : Q) : js_le a b = false <-> b < a.
Proof.
  rewrite <- not_true_iff_false, js_le_iff.
  split; [apply Qnot_le_lt | apply Qlt_not_le].
Qed.

(** Two tests that hold under the same condition have the same value. *)
Lemma bool_eq_of_iff (b c : bool) : (b = true <-> c = true) -> b = c.
Proof. destruct b, c; intuition congruence. Qed.

#[global] Instance js_gt_proper : Proper (Qeq ==> Qeq ==> eq) js_gt.
Proof.
  intros a a' Ha b b' Hb. apply bool_eq_of_iff.
  rewrite !js_gt_iff, Ha, Hb. reflexivity.
Qed.

#[global] Instance js_lt_proper : Proper (Qeq ==> Qeq ==> eq) js_lt.
Proof.
  intros a a' Ha b b' Hb. apply bool_eq_of_iff.
  rewrite !js_lt_iff, Ha, Hb. reflexivity.
Qed.

#[global] Instance js_ge_proper : Proper (Qeq ==> Qeq ==> eq) js_ge.
Proof.
  intros a a' Ha b b' Hb. apply bool_eq_of_iff.
  rewrite !js_ge_iff, Ha, Hb. reflexivity.
Qed.

(** Turns every decided comparison among the hypotheses into its order fact. *)
Ltac js_props :=
  repeat match goal with
    | H : js_lt _ _ = true |- _ => apply js_lt_iff in H
    | H : js_lt _ _ = false |- _ => apply js_lt_false_iff in H
    | H : js_gt _ _ = true |- _ => apply js_gt_iff in H
    | H : js_gt _ _ = false |- _ => apply js_gt_false_iff in H
    | H : js_ge _ _ = true |- _ => apply js_ge_iff in H
    | H : js_ge _ _ = false |- _ => apply js_ge_false_iff in H
    | H : js_le _ _ = true |- _ => apply js_le_iff in H
    | H : js_le _ _ = false |- _ => apply js_le_false_iff in H
    end.

(** ** Direction resolver *)

Lemma dot_WORLD_RIGHT (v : Vector3) : dot v WORLD_RIGHT == x v.
Proof. unfold dot, WORLD_RIGHT; simpl. ring. Qed.

Lemma dot_WORLD_FORWARD (v : Vector3) : dot v WORLD_FORWARD == z v.
Proof. unfold dot, WORLD_FORWARD; simpl. ring. Qed.

(** C1: a vector of squared length below 1e-6 resolves to south; any other
    vector resolves by its projections [right] and [forward]: east or west
    when [|right| > |forward|] (east for [right > 0], west for [right <= 0]),
    south or north when [|right| <= |forward|] (south for [forward > 0],
    north for [forward <= 0]); equal magnitudes never give east or west. *)
Theorem resolveFacingDirection_cases : forall v : Vector3,
  let right := dot v WORLD_RIGHT in
  let forward := dot v WORLD_FORWARD in
  (lengthSq v < 1e-6 -> resolveFacingDirection v = south) /\
  (1e-6 <= lengthSq v ->
    (Qabs forward < Qabs right -> 0 < right ->
       resolveFacingDirection v = east) /\
    (Qabs forward < Qabs right -> right <= 0 ->
       resolveFacingDirection v = west) /\
    (Qabs right <= Qabs forward -> 0 < forward ->
       resolveFacingDirection v = south) /\
    (Qabs right <= Qabs forward -> forward <= 0 ->
       resolveFacingDirection v = north) /\
    (Qabs right == Qabs forward ->
       resolveFacingDirection v <> east /\ resolveFacingDirection v <> west)).
Proof.
  intros v right forward. unfold resolveFacingDirection.
  fold right forward.
  destruct (js_lt (lengthSq v) 1e-6) eqn:Hlen; js_props.
  - split; [reflexivity | intros Hge; exfalso; lra].
  - split; [intros Hlt; exfalso; lra | intros _].
    destruct (js_gt (Qabs right) (Qabs forward)) eqn:Habs;
      destruct (js_gt right 0) eqn:Hr;
      destruct (js_gt forward 0) eqn:Hf; js_props;
      repeat split; intros; try reflexivity; try discriminate;
      try (exfalso; lra).
Qed.

(** The branches of [resolveFacingDirection] on concrete vectors. *)
Example resolveFacingDirection_examples :
  resolveFacingDirection (mkVector3 0 0 0) = south /\
  resolveFacingDirection (mkVector3 0.0005 0 0.0005) = south /\
  resolveFacingDirection (mkVector3 1 0 0) = east /\
  resolveFacingDirection (mkVector3 (-1) 5 0.5) = west /\
  resolveFacingDirection (mkVector3 0 0 1) = south /\
  resolveFacingDirection (mkVector3 0 0 (-1)) = north /\
  resolveFacingDirection (mkVector3 1 0 1) = south /\
  resolveFacingDirection (mkVector3 1 0 (-1)) = north /\
  resolveFacingDirection (mkVector3 (-1) 0 1) = south /\
  resolveFacingDirection (mkVector3 0 1 0) = north.
Proof. repeat split; vm_compute; reflexivity. Qed.

(** Scaling a vector scales both projections and the squared length. *)
Lemma dot_multiplyScalar (k : Q) (v w : Vector3) :
  dot (multiplyScalar k v) w == k * dot v w.
Proof. unfold dot, multiplyScalar; simpl. ring. Qed.

Lemma lengthSq_multiplyScalar (k : Q) (v : Vector3) :
  lengthSq (multiplyScalar k v) == k * k * lengthSq v.
Proof. unfold lengthSq, multiplyScalar; simpl. ring. Qed.

Lemma js_gt_0_scale (k a : Q) : 0 < k -> js_gt (k * a) 0 = js_gt a 0.
Proof.
  intros Hk. apply bool_eq_of_iff. rewrite !js_gt_iff. split; intros H.
  - apply Qnot_le_lt. intros Hle.
    assert (k * a <= 0) by nra. lra.
  - apply Qmult_lt_0_compat; assumption.
Qed.

Lemma js_gt_abs_scale (k a b : Q) :
  0 < k -> js_gt (Qabs (k * a)) (Qabs (k * b)) = js_gt (Qabs a) (Qabs b).
Proof.
  intros Hk. apply bool_eq_of_iff. rewrite !js_gt_iff, !Qabs_Qmult.
  rewrite (Qabs_pos k) by lra.
  split; intros H.
  - apply Qmult_lt_l in H; assumption.
  - apply Qmult_lt_l; assumption.
Qed.

(** Past the length test the resolver only looks at the two projections, so
    a positive factor does not change its answer. *)
Lemma resolveFacingDirection_scale (k : Q) (v : Vector3) :
  0 < k ->
  js_lt (lengthSq v) 1e-6 = false ->
  js_lt (lengthSq (multiplyScalar k v)) 1e-6 = false ->
  resolveFacingDirection (multiplyScalar k v) = resolveFacingDirection v.
Proof.
  intros Hk Hv Hkv. unfold resolveFacingDirection. rewrite Hv, Hkv.
  cbv zeta. rewrite !dot_multiplyScalar.
  rewrite js_gt_abs_scale, !js_gt_0_scale by assumption.
  reflexivity.
Qed.

(** C2, as stated, fails: [(1,0,0)] has squared length [1 >= 1e-6] and
    resolves to east, while [0.0001 * (1,0,0)] has squared length [1e-8]
    and resolves to south by the length test. *)
Lemma resolveFacingDirection_scale_counterexample :
  ~ (forall (v : Vector3) (k : Q),
       1e-6 <= lengthSq v -> 0 < k ->
       resolveFacingDirection v = resolveFacingDirection (multiplyScalar k v)).
Proof.
  intros H.
  specialize (H (mkVector3 1 0 0) 0.0001).
  assert (H1 : 1e-6 <= lengthSq (mkVector3 1 0 0)) by (vm_compute; discriminate).
  assert (H2 : 0 < 0.0001) by reflexivity.
  specialize (H H1 H2). vm_compute in H. discriminate H.
Qed.

(** C2, amended: when the scaled vector, too, has squared length at least
    1e-6, a vector and its positive multiple resolve to the same direction. *)
Theorem resolveFacingDirection_scale_invariant :
  forall (v : Vector3) (k : Q),
    1e-6 <= lengthSq v -> 0 < k ->
    1e-6 <= lengthSq (multiplyScalar k v) ->
    resolveFacingDirection v = resolveFacingDirection (multiplyScalar k v).
Proof.
  intros v k Hv Hk Hkv. symmetry.
  apply resolveFacingDirection_scale; try assumption;
    apply js_lt_false_iff; assumption.
Qed.

Lemma resolveFacingDirection_scale_invariant_witness :
  1e-6 <= lengthSq (mkVector3 3 0 (-4)) /\ 0 < 0.5 /\
  1e-6 <= lengthSq (multiplyScalar 0.5 (mkVector3 3 0 (-4))) /\
  resolveFacingDirection (mkVector3 3 0 (-4)) =
    resolveFacingDirection (multiplyScalar 0.5 (mkVector3 3 0 (-4))).
Proof.
  assert (H1 : 1e-6 <= lengthSq (mkVector3 3 0 (-4)))
    by (vm_compute; discriminate).
  assert (H2 : 0 < 0.5) by reflexivity.
  assert (H3 : 1e-6 <= lengthSq (multiplyScalar 0.5 (mkVector3 3 0 (-4))))
    by (vm_compute; discriminate).
  split; [exact H1 | split; [exact H2 | split; [exact H3 | ]]].
  exact (resolveFacingDirection_scale_invariant (mkVector3 3 0 (-4)) 0.5 H1 H2 H3).
Defined.


(** ** Floor of a rational *)

Lemma Qfloor_unique (q : Q) (n : Z) :
  inject_Z n <= q -> q < inject_Z (n + 1) -> Qfloor q = n.
Proof.
  intros Hlo Hhi.
  pose proof (Qfloor_le q) as Hfl. pose proof (Qlt_floor q) as Hfu.
  assert (H1 : (Qfloor q < n + 1)%Z).
  { rewrite Zlt_Qlt. eapply Qle_lt_trans; eassumption. }
  assert (H2 : (n < Qfloor q + 1)%Z).
  { rewrite Zlt_Qlt. eapply Qle_lt_trans; eassumption. }
  lia.
Qed.

Lemma Qfloor_sub_Z (q : Q) (n : Z) : Qfloor (q - inject_Z n) = (Qfloor q - n)%Z.
Proof.
  pose proof (Qfloor_le q) as Hfl. pose proof (Qlt_floor q) as Hfu.
  apply Qfloor_unique.
  - unfold Z.sub. rewrite inject_Z_plus, inject_Z_opp. lra.
  - replace (Qfloor q - n + 1)%Z with (Qfloor q + 1 + - n)%Z by lia.
    rewrite inject_Z_plus, inject_Z_opp. lra.
Qed.

Lemma Qfloor_nonneg (q : Q) : 0 <= q -> (0 <= Qfloor q)%Z.
Proof. intros H. change 0%Z with (Qfloor 0). apply Qfloor_resp_le, H. Qed.

Lemma Qfloor_lt_1 (q : Q) : q < 1 -> (Qfloor q <= 0)%Z.
Proof.
  intros H. pose proof (Qfloor_le q) as Hfl.
  assert (H1 : (Qfloor q < 1)%Z).
  { rewrite Zlt_Qlt. eapply Qle_lt_trans; eassumption. }
  lia.
Qed.

Lemma wholeFrames_lt (elapsed d : Q) :
  0 < d -> elapsed < d -> wholeFrames elapsed d = 0%nat.
Proof.
  intros Hd Hlt. unfold wholeFrames.
  assert (elapsed / d < 1) by (apply Qlt_shift_div_r; lra).
  pose proof (Qfloor_lt_1 _ H). lia.
Qed.

Lemma wholeFrames_ge (elapsed d : Q) :
  0 < d -> d <= elapsed ->
  wholeFrames elapsed d = S (wholeFrames (elapsed - d) d).
Proof.
  intros Hd Hge. unfold wholeFrames.
  assert (Heq : (elapsed - d) / d == elapsed / d - inject_Z 1).
  { change (inject_Z 1) with 1. field. lra. }
  rewrite Heq, Qfloor_sub_Z.
  assert (H1 : 1 <= elapsed / d) by (apply Qle_shift_div_l; lra).
  apply Qfloor_resp_le in H1. change (Qfloor 1) with 1%Z in H1. lia.
Qed.

(** ** The loop runs [wholeFrames] times and never hits its bound *)

Lemma frameLoop_runs (next : nat -> nat) (d : Q) :
  0 < d ->
  forall (fuel frameIndex : nat) (elapsed : Q),
    (wholeFrames elapsed d < fuel)%nat ->
    exists elapsed',
      frameLoop next d fuel frameIndex elapsed =
        Some (Nat.iter (wholeFrames elapsed d) next frameIndex, elapsed') /\
      elapsed' == elapsed - inject_Z (Z.of_nat (wholeFrames elapsed d)) * d /\
      elapsed' < d.
Proof.
  intros Hd fuel. induction fuel as [|fuel IH]; intros frameIndex elapsed Hfuel.
  - lia.
  - simpl. destruct (js_ge elapsed d) eqn:Hge; js_props.
    + rewrite (wholeFrames_ge elapsed d Hd Hge) in *.
      destruct (IH (next frameIndex) (elapsed - d)) as (e' & Hrun & He' & Hlt);
        [lia|].
      exists e'. rewrite Hrun, Nat.iter_succ_r. split; [reflexivity|].
      split; [|assumption].
      rewrite He', Nat2Z.inj_succ. unfold Z.succ. rewrite inject_Z_plus.
      change (inject_Z 1) with 1. ring.
    + rewrite (wholeFrames_lt elapsed d Hd Hge) in *.
      exists elapsed. simpl. split; [reflexivity|].
      split; [|assumption]. change (inject_Z 0) with 0. ring.
Qed.

Lemma frameLoop_total (next : nat -> nat) (d : Q) (frameIndex : nat)
  (elapsed : Q) :
  0 < d ->
  exists elapsed',
    frameLoop next d (loopBound elapsed d) frameIndex elapsed =
      Some (Nat.iter (wholeFrames elapsed d) next frameIndex, elapsed') /\
    elapsed' == elapsed - inject_Z (Z.of_nat (wholeFrames elapsed d)) * d /\
    elapsed' < d.
Proof.
  intros Hd. apply frameLoop_runs; [assumption|].
  unfold loopBound, wholeFrames. lia.
Qed.

(** What remains after the loop is non-negative when the input was. *)
Lemma wholeFrames_remainder_nonneg (elapsed d : Q) :
  0 < d -> 0 <= elapsed ->
  0 <= elapsed - inject_Z (Z.of_nat (wholeFrames elapsed d)) * d.
Proof.
  intros Hd He. unfold wholeFrames.
  assert (H0 : 0 <= elapsed / d) by (apply Qle_shift_div_l; lra).
  rewrite Z2Nat.id by (apply Qfloor_nonneg; assumption).
  pose proof (Qfloor_le (elapsed / d)) as Hfl.
  assert (inject_Z (Qfloor (elapsed / d)) * d <= elapsed / d * d) by nra.
  assert (elapsed / d * d == elapsed) by (field; lra).
  lra.
Qed.

(** ** Frame clock of the 12x12 component *)

Lemma frameDuration_pos (fps : Q) : 0 < fps -> 0 < 1 / fps.
Proof. intros H. apply Qlt_shift_div_l; lra. Qed.

Lemma scene_advanceFrame_static (sequence : Scene.AnimationSequence)
  (delta : Q) (frameIndex : nat) (elapsed : Q) :
  (length (Scene.frames sequence) <= 1)%nat \/ Scene.fps sequence <= 0 ->
  Scene.advanceFrame sequence delta frameIndex elapsed = Some (0%nat, 0).
Proof.
  intros H. unfold Scene.advanceFrame.
  replace ((length (Scene.frames sequence) <=? 1)%nat
           || js_le (Scene.fps sequence) 0) with true; [reflexivity|].
  symmetry. apply orb_true_iff.
  destruct H as [H|H]; [left; apply Nat.leb_le, H | right; apply js_le_iff, H].
Qed.

Lemma scene_advanceFrame_playing (sequence : Scene.AnimationSequence)
  (delta : Q) (frameIndex : nat) (elapsed : Q) :
  (1 < length (Scene.frames sequence))%nat -> 0 < Scene.fps sequence ->
  let frameDuration := 1 / Scene.fps sequence in
  let steps := wholeFrames (elapsed + delta) frameDuration in
  exists elapsed',
    Scene.advanceFrame sequence delta frameIndex elapsed =
      Some (Nat.iter steps (Scene.nextFrameIndex sequence) frameIndex, elapsed') /\
    elapsed' == elapsed + delta - inject_Z (Z.of_nat steps) * frameDuration /\
    elapsed' < frameDuration.
Proof.
  intros Hlen Hfps frameDuration steps. unfold Scene.advanceFrame.
  replace ((length (Scene.frames sequence) <=? 1)%nat
           || js_le (Scene.fps sequence) 0) with false.
  - apply frameLoop_total, frameDuration_pos, Hfps.
  - symmetry. apply orb_false_iff. split.
    + apply Nat.leb_gt, Hlen.
    + apply js_le_false_iff, Hfps.
Qed.

(** The frame clock returns for every sequence, delta and state. *)
Lemma scene_advanceFrame_total (sequence : Scene.AnimationSequence)
  (delta : Q) (frameIndex : nat) (elapsed : Q) :
  exists result, Scene.advanceFrame sequence delta frameIndex elapsed = Some result.
Proof.
  destruct (le_lt_dec (length (Scene.frames sequence)) 1) as [Hlen|Hlen].
  - eexists. apply scene_advanceFrame_static. left; assumption.
  - destruct (Qlt_le_dec 0 (Scene.fps sequence)) as [Hfps|Hfps].
    + destruct (scene_advanceFrame_playing sequence delta frameIndex elapsed
                  Hlen Hfps) as (e' & H & _).
      eexists. exact H.
    + eexists. apply scene_advanceFrame_static. right; assumption.
Qed.

(** One step of a looping sequence is a step modulo its length. *)
Lemma scene_nextFrameIndex_loop (sequence : Scene.AnimationSequence)
  (frameIndex : nat) :
  Scene.loop sequence = true ->
  (frameIndex < length (Scene.frames sequence))%nat ->
  Scene.nextFrameIndex sequence frameIndex =
    ((frameIndex + 1) mod length (Scene.frames sequence))%nat.
Proof.
  intros Hloop Hlt. unfold Scene.nextFrameIndex. rewrite Hloop.
  destruct (length (Scene.frames sequence) <=? frameIndex + 1)%nat eqn:E.
  - apply Nat.leb_le in E.
    assert (Heq : (frameIndex + 1 = length (Scene.frames sequence))%nat) by lia.
    rewrite Heq, Nat.Div0.mod_same. reflexivity.
  - apply Nat.leb_gt in E. rewrite Nat.mod_small by lia. reflexivity.
Qed.


(** One step of a non-looping sequence moves up and stops at the last index. *)
Lemma scene_nextFrameIndex_clamp (sequence : Scene.AnimationSequence)
  (frameIndex : nat) :
  Scene.loop sequence = false ->
  (frameIndex < length (Scene.frames sequence))%nat ->
  Scene.nextFrameIndex sequence frameIndex =
    Nat.min (frameIndex + 1) (length (Scene.frames sequence) - 1).
Proof.
  intros Hloop Hlt. unfold Scene.nextFrameIndex. rewrite Hloop.
  destruct (length (Scene.frames sequence) <=? frameIndex + 1)%nat eqn:E.
  - apply Nat.leb_le in E. lia.
  - apply Nat.leb_gt in E. lia.
Qed.

Lemma scene_iter_clamp (sequence : Scene.AnimationSequence) (steps : nat) :
  Scene.loop sequence = false ->
  forall frameIndex,
    (frameIndex < length (Scene.frames sequence))%nat ->
    Nat.iter steps (Scene.nextFrameIndex sequence) frameIndex =
      Nat.min (frameIndex + steps) (length (Scene.frames sequence) - 1).
Proof.
  intros Hloop. induction steps as [|steps IH]; intros frameIndex Hlt.
  - simpl. lia.
  - simpl. rewrite IH by assumption.
    rewrite scene_nextFrameIndex_clamp by (try assumption; lia). lia.
Qed.

(** Whatever the loop flag, a step keeps the index inside the sequence. *)
Lemma scene_nextFrameIndex_bound (sequence : Scene.AnimationSequence)
  (frameIndex : nat) :
  (0 < length (Scene.frames sequence))%nat ->
  (Scene.nextFrameIndex sequence frameIndex <
     length (Scene.frames sequence))%nat.
Proof.
  intros Hlen. unfold Scene.nextFrameIndex.
  destruct (length (Scene.frames sequence) <=? frameIndex + 1)%nat eqn:E.
  - destruct (Scene.loop sequence); lia.
  - apply Nat.leb_gt in E. exact E.
Qed.

Lemma scene_iter_bound (sequence : Scene.AnimationSequence) (steps : nat)
  (frameIndex : nat) :
  (frameIndex < length (Scene.frames sequence))%nat ->
  (Nat.iter steps (Scene.nextFrameIndex sequence) frameIndex <
     length (Scene.frames sequence))%nat.
Proof.
  intros Hlt. induction steps as [|steps IH]; simpl.
  - exact Hlt.
  - apply scene_nextFrameIndex_bound. lia.
Qed.

(** The frame clock keeps an index that is inside the sequence inside it. *)
Lemma scene_advanceFrame_bound (sequence : Scene.AnimationSequence)
  (delta : Q) (frameIndex : nat) (elapsed : Q) (frameIndex' : nat)
  (elapsed' : Q) :
  (frameIndex < length (Scene.frames sequence))%nat ->
  Scene.advanceFrame sequence delta frameIndex elapsed =
    Some (frameIndex', elapsed') ->
  (frameIndex' < length (Scene.frames sequence))%nat.
Proof.
  intros Hlt Hrun.
  destruct (le_lt_dec (length (Scene.frames sequence)) 1) as [Hlen|Hlen].
  - rewrite scene_advanceFrame_static in Hrun by (left; assumption).
    injection Hrun as <- _. lia.
  - destruct (Qlt_le_dec 0 (Scene.fps sequence)) as [Hfps|Hfps].
    + destruct (scene_advanceFrame_playing sequence delta frameIndex elapsed
                  Hlen Hfps) as (e' & H & _).
      rewrite H in Hrun. injection Hrun as <- _.
      apply scene_iter_bound, Hlt.
    + rewrite scene_advanceFrame_static in Hrun by (right; assumption).
      injection Hrun as <- _. lia.
Qed.

(** ** Frame clock of the 8x4 component *)

Lemma character_advanceFrame_static (config : Character.AnimationConfig)
  (delta : Q) (frameIndex : nat) (elapsed : Q) :
  (Character.frameCount config <= 1)%nat \/ Character.speedFps config <= 0 ->
  Character.advanceFrame config delta frameIndex elapsed = Some (0%nat, 0).
Proof.
  intros H. unfold Character.advanceFrame.
  replace ((Character.frameCount config <=? 1)%nat
           || js_le (Character.speedFps config) 0) with true; [reflexivity|].
  symmetry. apply orb_true_iff.
  destruct H as [H|H]; [left; apply Nat.leb_le, H | right; apply js_le_iff, H].
Qed.

Lemma character_advanceFrame_playing (config : Character.AnimationConfig)
  (delta : Q) (frameIndex : nat) (elapsed : Q) :
  (1 < Character.frameCount config)%nat -> 0 < Character.speedFps config ->
  let frameDuration := 1 / Character.speedFps config in
  let steps := wholeFrames (elapsed + delta) frameDuration in
  exists elapsed',
    Character.advanceFrame config delta frameIndex elapsed =
      Some (Nat.iter steps
              (Character.nextFrameIndex (Character.frameCount config))
              frameIndex, elapsed') /\
    elapsed' == elapsed + delta - inject_Z (Z.of_nat steps) * frameDuration /\
    elapsed' < frameDuration.
Proof.
  intros Hlen Hfps frameDuration steps. unfold Character.advanceFrame.
  replace ((Character.frameCount config <=? 1)%nat
           || js_le (Character.speedFps config) 0) with false.
  - apply frameLoop_total, frameDuration_pos, Hfps.
  - symmetry. apply orb_false_iff. split.
    + apply Nat.leb_gt, Hlen.
    + apply js_le_false_iff, Hfps.
Qed.

Lemma character_advanceFrame_total (config : Character.AnimationConfig)
  (delta : Q) (frameIndex : nat) (elapsed : Q) :
  exists result,
    Character.advanceFrame config delta frameIndex elapsed = Some result.
Proof.
  destruct (le_lt_dec (Character.frameCount config) 1) as [Hlen|Hlen].
  - eexists. apply character_advanceFrame_static. left; assumption.
  - destruct (Qlt_le_dec 0 (Character.speedFps config)) as [Hfps|Hfps].
    + destruct (character_advanceFrame_playing config delta frameIndex elapsed
                  Hlen Hfps) as (e' & H & _).
      eexists. exact H.
    + eexists. apply character_advanceFrame_static. right; assumption.
Qed.

Lemma character_iter_loop (frameCount steps frameIndex : nat) :
  (frameIndex < frameCount)%nat ->
  Nat.iter steps (Character.nextFrameIndex frameCount) frameIndex =
    ((frameIndex + steps) mod frameCount)%nat.
Proof.
  intros Hlt. induction steps as [|steps IH]; simpl.
  - rewrite Nat.add_0_r, Nat.mod_small by assumption. reflexivity.
  - rewrite IH. unfold Character.nextFrameIndex.
    rewrite Nat.Div0.add_mod_idemp_l. f_equal. lia.
Qed.

(** ** Frame advancement on binary64 numbers (C4) *)

Section Binary64Properties.

Import PrimFloat.
#[local] Set Warnings "-inexact-float".
Local Open Scope float_scope.

(** When the loop exits it has run its body [steps] times: the index went
    [steps] times through [next], the elapsed time lost [frameDuration]
    [steps] times, each subtraction rounded, the test held before every one
    of them and fails on what is left. *)
Lemma binary64_frameLoop_exit (next : nat -> nat) (d : float) (fuel : nat) :
  forall (frameIndex : nat) (elapsed : float) (frameIndex' : nat)
         (elapsed' : float),
    Binary64.frameLoop next d fuel frameIndex elapsed =
      Some (frameIndex', elapsed') ->
    exists steps : nat,
      (steps <= fuel)%nat /\
      frameIndex' = Nat.iter steps next frameIndex /\
      elapsed' = Nat.iter steps (fun t => sub t d) elapsed /\
      leb d elapsed' = false /\
      forall k, (k < steps)%nat ->
        leb d (Nat.iter k (fun t => sub t d) elapsed) = true.
Proof.
  induction fuel as [|fuel IH]; intros frameIndex elapsed frameIndex' elapsed';
    simpl; destruct (leb d elapsed) eqn:Htest; intros Hrun;
    try discriminate.
  - injection Hrun as <- <-. exists 0%nat. simpl.
    repeat split; try assumption; try lia.
  - destruct (IH _ _ _ _ Hrun) as (steps & Hle & Hidx & He & Hexit & Hbefore).
    exists (S steps). rewrite !Nat.iter_succ_r.
    repeat split; try assumption; try lia.
    intros [|k] Hk; [exact Htest|].
    rewrite Nat.iter_succ_r. apply Hbefore. lia.
  - injection Hrun as <- <-. exists 0%nat. simpl.
    repeat split; try assumption; try lia.
Qed.


Lemma binary64_nextFrameIndex_exact (sequence : Binary64.AnimationSequence)
  (frameIndex : nat) :
  Binary64.nextFrameIndex sequence frameIndex =
  Scene.nextFrameIndex
    (Scene.mkSequence (Binary64.frames sequence) 0 (Binary64.loop sequence))
    frameIndex.
Proof. reflexivity. Qed.

Lemma binary64_iter_nextFrameIndex (sequence : Binary64.AnimationSequence)
  (steps frameIndex : nat) :
  Nat.iter steps (Binary64.nextFrameIndex sequence) frameIndex =
  Nat.iter steps
    (Scene.nextFrameIndex
       (Scene.mkSequence (Binary64.frames sequence) 0 (Binary64.loop sequence)))
    frameIndex.
Proof. reflexivity. Qed.

(** A frame of a playing sequence of the 12x12 component is the loop run on
    [elapsed + delta] with [frameDuration = 1 / fps]. *)
Lemma binary64_sceneAdvanceFrame_playing (fuel : nat)
  (sequence : Binary64.AnimationSequence) (delta : float) (frameIndex : nat)
  (elapsed : float) :
  (1 < length (Binary64.frames sequence))%nat ->
  leb (Binary64.fps sequence) 0 = false ->
  Binary64.sceneAdvanceFrame fuel sequence delta frameIndex elapsed =
    Binary64.frameLoop (Binary64.nextFrameIndex sequence)
      (div 1 (Binary64.fps sequence)) fuel frameIndex (add elapsed delta).
Proof.
  intros Hlen Hfps. unfold Binary64.sceneAdvanceFrame.
  replace (length (Binary64.frames sequence) <=? 1)%nat with false
    by (symmetry; apply Nat.leb_gt; exact Hlen).
  rewrite Hfps. reflexivity.
Qed.



(** It need not exit: at 10 fps an elapsed time of 1e17 s absorbs every
    subtraction, and the loop hits any bound. *)
Example binary64_frameLoop_can_spin :
  forall (next : nat -> nat) (fuel frameIndex : nat),
    Binary64.frameLoop next (div 1 10) fuel frameIndex 1e17 = None.
Proof.
  intros next fuel. induction fuel as [|fuel IH]; intros frameIndex.
  - reflexivity.
  - change (Binary64.frameLoop next (div 1 10) (S fuel) frameIndex 1e17)
      with (Binary64.frameLoop next (div 1 10) fuel (next frameIndex) 1e17).
    apply IH.
Qed.



(** X3: on a playing non-looping sequence of the 12x12 component, a frame
    whose loop exits has moved the index up by the number of times the loop
    body ran and stopped it at the last index: the index never goes down
    and never passes [frames.length - 1], and it is the last index as soon
    as the body ran as many times as there were frames left. *)
Theorem advanceFrame_once_moves_up_to_last :
  forall (fuel : nat) (sequence : Binary64.AnimationSequence) (delta : float)
         (frameIndex : nat) (elapsed : float) (frameIndex' : nat)
         (elapsed' : float),
    (1 < length (Binary64.frames sequence))%nat ->
    leb (Binary64.fps sequence) 0 = false ->
    Binary64.loop sequence = false ->
    (frameIndex < length (Binary64.frames sequence))%nat ->
    Binary64.sceneAdvanceFrame fuel sequence delta frameIndex elapsed =
      Some (frameIndex', elapsed') ->
    let last := (length (Binary64.frames sequence) - 1)%nat in
    let frameDuration := div 1 (Binary64.fps sequence) in
    exists steps : nat,
      frameIndex' = Nat.min (frameIndex + steps) last /\
      (frameIndex <= frameIndex')%nat /\ (frameIndex' <= last)%nat /\
      (frameIndex' = last <-> (last - frameIndex <= steps)%nat) /\
      elapsed' =
        Nat.iter steps (fun t => sub t frameDuration) (add elapsed delta) /\
      leb frameDuration elapsed' = false.
Proof.
  intros fuel sequence delta frameIndex elapsed frameIndex' elapsed'
    Hlen Hfps Hloop Hidx Hrun last frameDuration.
  rewrite binary64_sceneAdvanceFrame_playing in Hrun by assumption.
  destruct (binary64_frameLoop_exit _ _ _ _ _ _ _ Hrun)
    as (steps & _ & Hindex & Helapsed & Hexit & _).
  exists steps.
  assert (Hmin : frameIndex' = Nat.min (frameIndex + steps) last).
  { rewrite Hindex, binary64_iter_nextFrameIndex.
    apply scene_iter_clamp; assumption. }
  split; [exact Hmin|]. unfold last in *.
  split; [lia|]. split; [lia|]. split; [lia|].
  split; [exact Helapsed | exact Hexit].
Qed.

Lemma advanceFrame_once_moves_up_to_last_witness :
  exists steps : nat,
    14%nat = Nat.min (0 + steps) 15 /\ (14 = 15 <-> 15 - 0 <= steps)%nat.
Proof.
  destruct (advanceFrame_once_moves_up_to_last 20%nat
              (Binary64.mkSequence
                 [0; 1; 2; 3; 4; 5; 6; 7; 8; 9; 10; 11; 12; 13; 14; 15]%Z
                 10 false)
              1.5 0%nat 0 14%nat
              (Nat.iter 14 (fun t => sub t (div 1 10)) (add 0 1.5)))
    as (steps & Hmin & _ & _ & Hlast & _);
    [simpl; lia | reflexivity | reflexivity | simpl; lia
    | vm_compute; reflexivity |].
  exists steps. split; [exact Hmin | exact Hlast].
Defined.

End Binary64Properties.

(** ** Non-looping sequences (C5) *)

Lemma scene_advanceFrames_total (sequence : Scene.AnimationSequence)
  (deltas : list Q) :
  forall (frameIndex : nat) (elapsed : Q),
  exists result,
    Scene.advanceFrames sequence deltas frameIndex elapsed = Some result.
Proof.
  induction deltas as [|delta deltas IH]; intros frameIndex elapsed; simpl.
  - eexists. reflexivity.
  - destruct (scene_advanceFrame_total sequence delta frameIndex elapsed)
      as ([i e] & Hrun).
    rewrite Hrun. apply IH.
Qed.

Lemma scene_advanceFrames_bound (sequence : Scene.AnimationSequence)
  (deltas : list Q) :
  forall (frameIndex : nat) (elapsed : Q) (frameIndex' : nat) (elapsed' : Q),
    (frameIndex < length (Scene.frames sequence))%nat ->
    Scene.advanceFrames sequence deltas frameIndex elapsed =
      Some (frameIndex', elapsed') ->
    (frameIndex' < length (Scene.frames sequence))%nat.
Proof.
  induction deltas as [|delta deltas IH];
    intros frameIndex elapsed frameIndex' elapsed' Hlt Hrun; simpl in Hrun.
  - injection Hrun as <- _. exact Hlt.
  - destruct (Scene.advanceFrame sequence delta frameIndex elapsed)
      as [[i e]|] eqn:Hstep; [|discriminate].
    eapply IH; [|exact Hrun].
    eapply scene_advanceFrame_bound; eassumption.
Qed.

(** A static pose shows index 0 after every non-empty run of frames. *)
Lemma scene_advanceFrames_static (sequence : Scene.AnimationSequence)
  (deltas : list Q) :
  (length (Scene.frames sequence) <= 1)%nat \/ Scene.fps sequence <= 0 ->
  forall (delta : Q) (frameIndex : nat) (elapsed : Q),
    Scene.advanceFrames sequence (delta :: deltas) frameIndex elapsed =
      Some (0%nat, 0).
Proof.
  intros Hstatic. induction deltas as [|delta' deltas IH];
    intros delta frameIndex elapsed.
  - simpl. rewrite scene_advanceFrame_static by assumption. reflexivity.
  - change (Scene.advanceFrames sequence (delta :: delta' :: deltas)
              frameIndex elapsed)
      with (match Scene.advanceFrame sequence delta frameIndex elapsed with
            | None => None
            | Some (i, e) => Scene.advanceFrames sequence (delta' :: deltas) i e
            end).
    rewrite scene_advanceFrame_static by assumption. apply IH.
Qed.

(** On the last index of a non-looping sequence that plays (or has a single
    frame), a frame leaves the index where it is. *)
Lemma scene_advanceFrame_frozen (sequence : Scene.AnimationSequence)
  (delta elapsed : Q) :
  Scene.loop sequence = false ->
  (0 < length (Scene.frames sequence))%nat ->
  ((1 < length (Scene.frames sequence))%nat -> 0 < Scene.fps sequence) ->
  exists elapsed',
    Scene.advanceFrame sequence delta
      (length (Scene.frames sequence) - 1) elapsed =
    Some ((length (Scene.frames sequence) - 1)%nat, elapsed').
Proof.
  intros Hloop Hpos Hplays.
  destruct (le_lt_dec (length (Scene.frames sequence)) 1) as [Hlen|Hlen].
  - exists 0. rewrite scene_advanceFrame_static by (left; assumption).
    do 2 f_equal. lia.
  - destruct (scene_advanceFrame_playing sequence delta
                (length (Scene.frames sequence) - 1) elapsed Hlen
                (Hplays Hlen)) as (e' & Hrun & _).
    exists e'. rewrite Hrun, scene_iter_clamp by (try assumption; lia).
    do 2 f_equal. lia.
Qed.

Lemma scene_advanceFrames_frozen (sequence : Scene.AnimationSequence)
  (deltas : list Q) :
  Scene.loop sequence = false ->
  (0 < length (Scene.frames sequence))%nat ->
  ((1 < length (Scene.frames sequence))%nat -> 0 < Scene.fps sequence) ->
  forall elapsed,
  exists elapsed',
    Scene.advanceFrames sequence deltas
      (length (Scene.frames sequence) - 1) elapsed =
    Some ((length (Scene.frames sequence) - 1)%nat, elapsed').
Proof.
  intros Hloop Hpos Hplays.
  induction deltas as [|delta deltas IH]; intros elapsed; simpl.
  - exists elapsed. reflexivity.
  - destruct (scene_advanceFrame_frozen sequence delta elapsed Hloop Hpos Hplays)
      as (e1 & Hstep).
    rewrite Hstep. apply IH.
Qed.

(** C5: on a sequence with [loop = false], from an index inside the
    sequence, any run of frames leaves the index at most
    [frames.length - 1]; and when a run that starts at index 0 or has at
    least one frame ends on the last index, every further run ends on the
    last index too: the index is not taken back to 0. *)
Theorem advanceFrames_clamps_on_last_frame :
  forall (sequence : Scene.AnimationSequence) (deltas : list Q)
         (frameIndex : nat) (elapsed : Q),
    Scene.loop sequence = false ->
    (frameIndex < length (Scene.frames sequence))%nat ->
    exists frameIndex' elapsed',
      Scene.advanceFrames sequence deltas frameIndex elapsed =
        Some (frameIndex', elapsed') /\
      (Z.of_nat frameIndex' <= Z.of_nat (length (Scene.frames sequence)) - 1)%Z /\
      (deltas <> [] \/ frameIndex = 0%nat ->
       frameIndex' = (length (Scene.frames sequence) - 1)%nat ->
       forall later : list Q,
       exists elapsed'',
         Scene.advanceFrames sequence later frameIndex' elapsed' =
           Some ((length (Scene.frames sequence) - 1)%nat, elapsed'')).
Proof.
  intros sequence deltas frameIndex elapsed Hloop Hlt.
  destruct (scene_advanceFrames_total sequence deltas frameIndex elapsed)
    as ([i e] & Hrun).
  exists i, e. split; [exact Hrun|].
  pose proof (scene_advanceFrames_bound _ _ _ _ _ _ Hlt Hrun) as Hi.
  split; [lia|].
  intros Hstart Hlast later. subst i.
  apply scene_advanceFrames_frozen; [assumption | lia |].
  intros Hlen.
  destruct (Qlt_le_dec 0 (Scene.fps sequence)) as [Hfps|Hfps]; [assumption|].
  exfalso. destruct deltas as [|delta deltas].
  - simpl in Hrun. injection Hrun as Hsame _.
    destruct Hstart as [Hne|Hzero]; [congruence | lia].
  - rewrite scene_advanceFrames_static in Hrun by (right; assumption).
    injection Hrun as Hzero _. lia.
Qed.

Lemma advanceFrames_clamps_on_last_frame_witness :
  exists elapsed' elapsed'',
    Scene.advanceFrames (Scene.mkSequence [7; 8; 9]%Z 2 false) [0.75; 5]
      0%nat 0 = Some (2%nat, elapsed') /\
    Scene.advanceFrames (Scene.mkSequence [7; 8; 9]%Z 2 false) [0.5; 3]
      2%nat elapsed' = Some (2%nat, elapsed'').
Proof.
  destruct (advanceFrames_clamps_on_last_frame
              (Scene.mkSequence [7; 8; 9]%Z 2 false) [0.75; 5] 0%nat 0)
    as (i & e & Hrun & Hbound & Hfrozen); [reflexivity | simpl; lia |].
  assert (Hi : i = 2%nat).
  { vm_compute in Hrun. injection Hrun as Hi _. symmetry. exact Hi. }
  subst i.
  destruct (Hfrozen (or_intror eq_refl) eq_refl [0.5; 3]) as (e'' & Hlater).
  exists e, e''. split; [exact Hrun | exact Hlater].
Defined.

(** ** The frame callback as a whole *)

Lemma status_neq_true (a b : CharacterAnimationStatus) :
  a <> b -> status_neq a b = true.
Proof. intros H. unfold status_neq. destruct (status_eq_dec a b); congruence. Qed.

Lemma status_neq_refl (a : CharacterAnimationStatus) : status_neq a a = false.
Proof. unfold status_neq. destruct (status_eq_dec a a); congruence. Qed.

Lemma scene_handleStatusChange_status (animationStatus : CharacterAnimationStatus)
  (refs : Scene.Refs) :
  Scene.previousStatusRef (Scene.handleStatusChange animationStatus refs) =
    animationStatus.
Proof.
  unfold Scene.handleStatusChange, status_neq.
  destruct (status_eq_dec (Scene.previousStatusRef refs) animationStatus);
    [assumption | reflexivity].
Qed.

Lemma character_handleStatusChange_status
  (animationStatus : CharacterAnimationStatus) (refs : Character.Refs) :
  Character.previousStatusRef (Character.handleStatusChange animationStatus refs) =
    animationStatus.
Proof.
  unfold Character.handleStatusChange, status_neq.
  destruct (status_eq_dec (Character.previousStatusRef refs) animationStatus);
    [assumption | reflexivity].
Qed.

Lemma scene_handleStatusChange_direction
  (animationStatus : CharacterAnimationStatus) (refs : Scene.Refs) :
  Scene.directionRef (Scene.handleStatusChange animationStatus refs) =
    Scene.directionRef refs.
Proof.
  unfold Scene.handleStatusChange.
  destruct (status_neq _ _); reflexivity.
Qed.

Lemma character_handleStatusChange_direction
  (animationStatus : CharacterAnimationStatus) (refs : Character.Refs) :
  Character.directionRef (Character.handleStatusChange animationStatus refs) =
    Character.directionRef refs.
Proof.
  unfold Character.handleStatusChange.
  destruct (status_neq _ _); reflexivity.
Qed.

(** The callback of the 12x12 component returns, and its result is made of
    the results of its steps. *)
Lemma scene_useFrameIn_result (spriteMap : FacingDirection -> Scene.SpriteDefinition)
  (cs : CharacterStatus) (animationStatus : CharacterAnimationStatus)
  (delta : Q) (refs : Scene.Refs) :
  let direction := updateDirection cs (Scene.directionRef refs) in
  let reset := Scene.handleStatusChange animationStatus refs in
  let sequence := Scene.getSequenceIn spriteMap direction animationStatus in
  exists frameIndex elapsed,
    Scene.advanceFrame sequence delta (Scene.frameIndexRef reset)
      (Scene.elapsedRef reset) = Some (frameIndex, elapsed) /\
    Scene.useFrameIn spriteMap cs animationStatus delta refs =
      Some (Scene.mkRefs direction elapsed frameIndex animationStatus,
            Scene.atlasOffset (Scene.row (spriteMap direction))
              (nth_error (Scene.frames sequence) frameIndex)).
Proof.
  intros direction reset sequence.
  destruct (scene_advanceFrame_total sequence delta (Scene.frameIndexRef reset)
              (Scene.elapsedRef reset)) as ([i e] & Hrun).
  exists i, e. split; [exact Hrun|].
  unfold Scene.useFrameIn. fold direction reset sequence. rewrite Hrun.
  unfold reset. rewrite scene_handleStatusChange_status. reflexivity.
Qed.

(** The same for the 8x4 component. *)
Lemma character_useFrame_result (cs : CharacterStatus)
  (animationStatus : CharacterAnimationStatus) (delta : Q)
  (refs : Character.Refs) :
  let direction := updateDirection cs (Character.directionRef refs) in
  let reset := Character.handleStatusChange animationStatus refs in
  exists frameIndex elapsed,
    Character.advanceFrame (Character.ANIMATION_CONFIG animationStatus) delta
      (Character.frameIndexRef reset) (Character.elapsedRef reset) =
      Some (frameIndex, elapsed) /\
    Character.useFrame cs animationStatus delta refs =
      Some (Character.mkRefs direction frameIndex elapsed animationStatus,
            Character.atlasOffset (Character.DIRECTION_ROW direction) frameIndex).
Proof.
  intros direction reset.
  destruct (character_advanceFrame_total
              (Character.ANIMATION_CONFIG animationStatus) delta
              (Character.frameIndexRef reset) (Character.elapsedRef reset))
    as ([i e] & Hrun).
  exists i, e. split; [exact Hrun|].
  unfold Character.useFrame. rewrite character_handleStatusChange_direction.
  fold direction reset. rewrite Hrun.
  unfold reset. rewrite character_handleStatusChange_status. reflexivity.
Qed.

(** ** Reset on a status change (C3) *)

(** C3: when the animation status of a frame differs from the stored one,
    the reset step sets the frame index to 0 and the elapsed time to 0 and
    records the new status, whatever the stored index and elapsed time were,
    and the frame clock of that frame starts from index 0 and elapsed 0: the
    refs after the frame are those the clock computes from there.  Both
    components. *)
Theorem status_change_resets_before_advancing :
  (forall (spriteMap : FacingDirection -> Scene.SpriteDefinition)
          (cs : CharacterStatus) (animationStatus : CharacterAnimationStatus)
          (delta : Q) (refs : Scene.Refs),
      Scene.previousStatusRef refs <> animationStatus ->
      let direction := updateDirection cs (Scene.directionRef refs) in
      let sequence := Scene.getSequenceIn spriteMap direction animationStatus in
      Scene.handleStatusChange animationStatus refs =
        Scene.mkRefs (Scene.directionRef refs) 0 0%nat animationStatus /\
      exists frameIndex elapsed,
        Scene.advanceFrame sequence delta 0%nat 0 = Some (frameIndex, elapsed) /\
        Scene.useFrameIn spriteMap cs animationStatus delta refs =
          Some (Scene.mkRefs direction elapsed frameIndex animationStatus,
                Scene.atlasOffset (Scene.row (spriteMap direction))
                  (nth_error (Scene.frames sequence) frameIndex))) /\
  (forall (cs : CharacterStatus) (animationStatus : CharacterAnimationStatus)
          (delta : Q) (refs : Character.Refs),
      Character.previousStatusRef refs <> animationStatus ->
      let direction := updateDirection cs (Character.directionRef refs) in
      Character.handleStatusChange animationStatus refs =
        Character.mkRefs (Character.directionRef refs) 0%nat 0 animationStatus /\
      exists frameIndex elapsed,
        Character.advanceFrame (Character.ANIMATION_CONFIG animationStatus)
          delta 0%nat 0 = Some (frameIndex, elapsed) /\
        Character.useFrame cs animationStatus delta refs =
          Some (Character.mkRefs direction frameIndex elapsed animationStatus,
                Character.atlasOffset (Character.DIRECTION_ROW direction)
                  frameIndex)).
Proof.
  split.
  - intros spriteMap cs animationStatus delta refs Hchange direction sequence.
    assert (Hreset : Scene.handleStatusChange animationStatus refs =
                     Scene.mkRefs (Scene.directionRef refs) 0 0%nat animationStatus).
    { unfold Scene.handleStatusChange.
      rewrite status_neq_true by assumption. reflexivity. }
    split; [exact Hreset|].
    destruct (scene_useFrameIn_result spriteMap cs animationStatus delta refs)
      as (i & e & Hclock & Hframe).
    rewrite Hreset in Hclock. simpl in Hclock.
    exists i, e. split; [exact Hclock | exact Hframe].
  - intros cs animationStatus delta refs Hchange direction.
    assert (Hreset : Character.handleStatusChange animationStatus refs =
                     Character.mkRefs (Character.directionRef refs) 0%nat 0
                       animationStatus).
    { unfold Character.handleStatusChange.
      rewrite status_neq_true by assumption. reflexivity. }
    split; [exact Hreset|].
    destruct (character_useFrame_result cs animationStatus delta refs)
      as (i & e & Hclock & Hframe).
    rewrite Hreset in Hclock. simpl in Hclock.
    exists i, e. split; [exact Hclock | exact Hframe].
Qed.

Lemma status_change_resets_before_advancing_witness :
  (exists frameIndex elapsed,
     Scene.advanceFrame (Scene.getSequence south IDLE) 0.5 0%nat 0 =
       Some (frameIndex, elapsed) /\
     Scene.useFrame (mkCharacterStatus (mkVector3 0 0 0) (mkVector3 0 0 0))
       IDLE 0.5 (Scene.mkRefs south 0.07 4%nat WALK) =
       Some (Scene.mkRefs south elapsed frameIndex IDLE,
             Scene.atlasOffset 0
               (nth_error (Scene.frames (Scene.getSequence south IDLE))
                  frameIndex))) /\
  (exists frameIndex elapsed,
     Character.advanceFrame (Character.ANIMATION_CONFIG IDLE) 0.5 0%nat 0 =
       Some (frameIndex, elapsed) /\
     Character.useFrame (mkCharacterStatus (mkVector3 0 0 0) (mkVector3 0 0 0))
       IDLE 0.5 (Character.mkRefs south 7%nat 0.07 WALK) =
       Some (Character.mkRefs south frameIndex elapsed IDLE,
             Character.atlasOffset 0 frameIndex)).
Proof.
  destruct status_change_resets_before_advancing as (Hscene & Hcharacter).
  split.
  - destruct (Hscene Scene.SPRITE_MAP
                (mkCharacterStatus (mkVector3 0 0 0) (mkVector3 0 0 0))
                IDLE 0.5 (Scene.mkRefs south 0.07 4%nat WALK))
      as (_ & i & e & Hclock & Hframe); [discriminate|].
    exists i, e. split; [exact Hclock | exact Hframe].
  - destruct (Hcharacter
                (mkCharacterStatus (mkVector3 0 0 0) (mkVector3 0 0 0))
                IDLE 0.5 (Character.mkRefs south 7%nat 0.07 WALK))
      as (_ & i & e & Hclock & Hframe); [discriminate|].
    exists i, e. split; [exact Hclock | exact Hframe].
Defined.

(** ** Choice of the vector to resolve (C9) *)

Lemma updateDirection_cases (cs : CharacterStatus) (current : FacingDirection) :
  (1e-6 < lengthSq (movingDir cs) ->
     updateDirection cs current = resolveFacingDirection (movingDir cs)) /\
  (lengthSq (movingDir cs) <= 1e-6 -> 1e-6 < lengthSq (inputDir cs) ->
     updateDirection cs current = resolveFacingDirection (inputDir cs)) /\
  (lengthSq (movingDir cs) <= 1e-6 -> lengthSq (inputDir cs) <= 1e-6 ->
     updateDirection cs current = current).
Proof.
  unfold updateDirection.
  destruct (js_gt (lengthSq (movingDir cs)) 1e-6) eqn:Hm.
  - rewrite Hm. js_props. repeat split; intros; try reflexivity; exfalso; lra.
  - destruct (js_gt (lengthSq (inputDir cs)) 1e-6) eqn:Hi; js_props;
      repeat split; intros; try reflexivity; exfalso; lra.
Qed.

(** C9: in both components the direction stored after a frame is the
    resolution of [movingDir] when its squared length exceeds 1e-6,
    otherwise the resolution of [inputDir] when that one's squared length
    exceeds 1e-6, and otherwise the direction stored before the frame. *)
Theorem useFrame_direction_choice :
  (forall (spriteMap : FacingDirection -> Scene.SpriteDefinition)
          (cs : CharacterStatus) (animationStatus : CharacterAnimationStatus)
          (delta : Q) (refs : Scene.Refs),
      exists refs' offset,
        Scene.useFrameIn spriteMap cs animationStatus delta refs =
          Some (refs', offset) /\
        (1e-6 < lengthSq (movingDir cs) ->
           Scene.directionRef refs' = resolveFacingDirection (movingDir cs)) /\
        (lengthSq (movingDir cs) <= 1e-6 -> 1e-6 < lengthSq (inputDir cs) ->
           Scene.directionRef refs' = resolveFacingDirection (inputDir cs)) /\
        (lengthSq (movingDir cs) <= 1e-6 -> lengthSq (inputDir cs) <= 1e-6 ->
           Scene.directionRef refs' = Scene.directionRef refs)) /\
  (forall (cs : CharacterStatus) (animationStatus : CharacterAnimationStatus)
          (delta : Q) (refs : Character.Refs),
      exists refs' offset,
        Character.useFrame cs animationStatus delta refs = Some (refs', offset) /\
        (1e-6 < lengthSq (movingDir cs) ->
           Character.directionRef refs' = resolveFacingDirection (movingDir cs)) /\
        (lengthSq (movingDir cs) <= 1e-6 -> 1e-6 < lengthSq (inputDir cs) ->
           Character.directionRef refs' = resolveFacingDirection (inputDir cs)) /\
        (lengthSq (movingDir cs) <= 1e-6 -> lengthSq (inputDir cs) <= 1e-6 ->
           Character.directionRef refs' = Character.directionRef refs)).
Proof.
  split.
  - intros spriteMap cs animationStatus delta refs.
    destruct (scene_useFrameIn_result spriteMap cs animationStatus delta refs)
      as (i & e & _ & Hframe).
    eexists _, _. split; [exact Hframe|]. simpl.
    apply updateDirection_cases.
  - intros cs animationStatus delta refs.
    destruct (character_useFrame_result cs animationStatus delta refs)
      as (i & e & _ & Hframe).
    eexists _, _. split; [exact Hframe|]. simpl.
    apply updateDirection_cases.
Qed.

(** The three cases of the choice on concrete vectors: [movingDir] wins,
    [inputDir] is the fallback, and two short vectors keep the direction. *)
Example updateDirection_examples :
  updateDirection
    (mkCharacterStatus (mkVector3 (-1) 0 0) (mkVector3 0 0 (-1))) south = west /\
  updateDirection
    (mkCharacterStatus (mkVector3 0.001 0 0) (mkVector3 0 0 (-1))) south = north /\
  updateDirection
    (mkCharacterStatus (mkVector3 0.001 0 0) (mkVector3 0 0 0.001)) east = east /\
  updateDirection
    (mkCharacterStatus (mkVector3 0 0 0) (mkVector3 0 0 0)) west = west.
Proof. repeat split; vm_compute; reflexivity. Qed.

Lemma useFrame_direction_choice_witness :
  (exists refs' offset,
     Scene.useFrame
       (mkCharacterStatus (mkVector3 0.001 0 0) (mkVector3 0 0 (-1)))
       WALK 0.016 (Scene.initialRefs WALK) = Some (refs', offset) /\
     Scene.directionRef refs' = north) /\
  (exists refs' offset,
     Character.useFrame
       (mkCharacterStatus (mkVector3 0 0 0) (mkVector3 0.0005 0 0))
       IDLE 0.016 (Character.mkRefs east 0%nat 0 IDLE) = Some (refs', offset) /\
     Character.directionRef refs' = east).
Proof.
  destruct useFrame_direction_choice as (Hscene & Hcharacter).
  split.
  - destruct (Hscene Scene.SPRITE_MAP
                (mkCharacterStatus (mkVector3 0.001 0 0) (mkVector3 0 0 (-1)))
                WALK 0.016 (Scene.initialRefs WALK))
      as (refs' & offset & Hframe & _ & Hinput & _).
    exists refs', offset. split; [exact Hframe|].
    rewrite Hinput; [reflexivity | vm_compute; discriminate | reflexivity].
  - destruct (Hcharacter
                (mkCharacterStatus (mkVector3 0 0 0) (mkVector3 0.0005 0 0))
                IDLE 0.016 (Character.mkRefs east 0%nat 0 IDLE))
      as (refs' & offset & Hframe & _ & _ & Hkeep).
    exists refs', offset. split; [exact Hframe|].
    rewrite Hkeep; [reflexivity | |]; vm_compute; discriminate.
Defined.

(** ** Sequence lookup (C6) *)

(** C6: for every table, direction and status, [getSequence] returns the
    entry of the status when the direction's table has one and the
    direction's IDLE sequence when it has none; and the frame callback
    returns a result for every status, input and state. *)
Theorem getSequence_falls_back_to_IDLE :
  forall (spriteMap : FacingDirection -> Scene.SpriteDefinition)
         (facing : FacingDirection) (status : CharacterAnimationStatus),
    (Scene.lookupSequence (Scene.sequences (spriteMap facing)) status = None ->
       Scene.getSequenceIn spriteMap facing status =
         Scene.seqIDLE (Scene.sequences (spriteMap facing))) /\
    (forall sequence,
       Scene.lookupSequence (Scene.sequences (spriteMap facing)) status =
         Some sequence ->
       Scene.getSequenceIn spriteMap facing status = sequence) /\
    (forall (cs : CharacterStatus) (delta : Q) (refs : Scene.Refs),
       exists result,
         Scene.useFrameIn spriteMap cs status delta refs = Some result).
Proof.
  intros spriteMap facing status. unfold Scene.getSequenceIn.
  split; [|split].
  - intros Hnone. rewrite Hnone. reflexivity.
  - intros sequence Hsome. rewrite Hsome. reflexivity.
  - intros cs delta refs.
    destruct (scene_useFrameIn_result spriteMap cs status delta refs)
      as (i & e & _ & Hframe).
    eexists. exact Hframe.
Qed.

(** A table with only the required IDLE entry: every status plays IDLE. *)
Example getSequence_fallback_example :
  let idle := Scene.mkSequence [6; 7; 8]%Z 3 true in
  let spriteMap := fun _ : FacingDirection =>
    Scene.mkSpriteDefinition 0
      (Scene.mkSequences idle None None None None None None) in
  Scene.getSequenceIn spriteMap west RUN = idle /\
  Scene.getSequenceIn spriteMap north JUMP_LAND = idle /\
  Scene.getSequence west RUN = Scene.mkSequence [0; 1; 2; 3; 4; 5]%Z 10 true.
Proof. repeat split. Qed.

(** ** Frame index inside the sequence (C10) *)

(** In [SPRITE_MAP] the sequence of a status is the same in every direction. *)
Lemma scene_getSequence_direction (facing facing' : FacingDirection)
  (status : CharacterAnimationStatus) :
  Scene.getSequence facing status = Scene.getSequence facing' status.
Proof. destruct facing, facing'; reflexivity. Qed.

Lemma scene_getSequence_nonempty (facing : FacingDirection)
  (status : CharacterAnimationStatus) :
  (0 < length (Scene.frames (Scene.getSequence facing status)))%nat.
Proof. destruct facing, status; simpl; lia. Qed.

Lemma scene_handleStatusChange_bounds (animationStatus : CharacterAnimationStatus)
  (refs : Scene.Refs) :
  Scene.frameIndexInBounds refs ->
  Scene.frameIndexInBounds (Scene.handleStatusChange animationStatus refs).
Proof.
  intros Hinv. unfold Scene.handleStatusChange.
  destruct (status_neq (Scene.previousStatusRef refs) animationStatus).
  - unfold Scene.frameIndexInBounds. simpl. apply scene_getSequence_nonempty.
  - exact Hinv.
Qed.

Lemma scene_useFrame_bounds (cs : CharacterStatus)
  (animationStatus : CharacterAnimationStatus) (delta : Q) (refs : Scene.Refs) :
  Scene.frameIndexInBounds refs ->
  exists refs' offset,
    Scene.useFrame cs animationStatus delta refs = Some (refs', offset) /\
    Scene.frameIndexInBounds refs' /\
    Scene.previousStatusRef refs' = animationStatus /\
    offset =
      Scene.atlasOffset (Scene.row (Scene.SPRITE_MAP (Scene.directionRef refs')))
        (nth_error
           (Scene.frames
              (Scene.getSequence (Scene.directionRef refs') animationStatus))
           (Scene.frameIndexRef refs')).
Proof.
  intros Hinv.
  destruct (scene_useFrameIn_result Scene.SPRITE_MAP cs animationStatus delta refs)
    as (i & e & Hclock & Hframe).
  eexists _, _. split; [exact Hframe|]. simpl.
  split; [|split; reflexivity].
  unfold Scene.frameIndexInBounds. simpl.
  eapply scene_advanceFrame_bound; [|exact Hclock].
  apply (scene_handleStatusChange_bounds animationStatus) in Hinv.
  unfold Scene.frameIndexInBounds in Hinv.
  rewrite scene_handleStatusChange_status in Hinv.
  rewrite (scene_getSequence_direction _
             (Scene.directionRef (Scene.handleStatusChange animationStatus refs))).
  exact Hinv.
Qed.

Lemma scene_reachable_bounds (refs : Scene.Refs) :
  Scene.reachable refs -> Scene.frameIndexInBounds refs.
Proof.
  intros Hreach. induction Hreach as [status | cs status delta refs refs' offset _ IH Hframe].
  - unfold Scene.frameIndexInBounds. simpl. apply scene_getSequence_nonempty.
  - destruct (scene_useFrame_bounds cs status delta refs IH)
      as (r & o & Hframe' & Hinv & _).
    rewrite Hframe in Hframe'. injection Hframe' as -> _. exact Hinv.
Qed.

(** C10: with [SPRITE_MAP], whose sequences for a status have the same
    length in every direction, the refs at mount have
    [0 <= frameIndex < frames.length] for the sequence in play, every frame
    (of any delta, with or without a change of status or direction) keeps
    it so, so do all refs the component can reach, and the access
    [sequence.frames[frameIndex]] of the frame finds a frame value. *)
Theorem frameIndex_stays_in_bounds :
  (forall (status : CharacterAnimationStatus) (facing facing' : FacingDirection),
      length (Scene.frames (Scene.getSequence facing status)) =
      length (Scene.frames (Scene.getSequence facing' status))) /\
  (forall status, Scene.frameIndexInBounds (Scene.initialRefs status)) /\
  (forall (cs : CharacterStatus) (animationStatus : CharacterAnimationStatus)
          (delta : Q) (refs : Scene.Refs),
      Scene.frameIndexInBounds refs ->
      exists refs' offset,
        Scene.useFrame cs animationStatus delta refs = Some (refs', offset) /\
        Scene.frameIndexInBounds refs' /\
        (0 <= Z.of_nat (Scene.frameIndexRef refs') <
           Z.of_nat (length (Scene.frames
                       (Scene.getSequence (Scene.directionRef refs')
                          animationStatus))))%Z /\
        exists frameValue,
          nth_error
            (Scene.frames
               (Scene.getSequence (Scene.directionRef refs') animationStatus))
            (Scene.frameIndexRef refs') = Some frameValue) /\
  (forall refs, Scene.reachable refs -> Scene.frameIndexInBounds refs).
Proof.
  split; [|split; [|split]].
  - intros status facing facing'.
    rewrite (scene_getSequence_direction facing facing'). reflexivity.
  - intros status. apply scene_reachable_bounds. constructor.
  - intros cs animationStatus delta refs Hinv.
    destruct (scene_useFrame_bounds cs animationStatus delta refs Hinv)
      as (refs' & offset & Hframe & Hinv' & Hstatus & _).
    exists refs', offset. split; [exact Hframe|]. split; [exact Hinv'|].
    unfold Scene.frameIndexInBounds in Hinv'. rewrite Hstatus in Hinv'.
    split; [lia|].
    destruct (nth_error
                (Scene.frames
                   (Scene.getSequence (Scene.directionRef refs') animationStatus))
                (Scene.frameIndexRef refs')) as [f|] eqn:Hnth.
    + exists f. reflexivity.
    + apply nth_error_None in Hnth. lia.
  - apply scene_reachable_bounds.
Qed.

Lemma frameIndex_stays_in_bounds_witness :
  exists refs' offset frameValue,
    Scene.useFrame (mkCharacterStatus (mkVector3 1 0 0) (mkVector3 0 0 0))
      IDLE 10 (Scene.mkRefs south 0.09 5%nat WALK) = Some (refs', offset) /\
    nth_error
      (Scene.frames (Scene.getSequence (Scene.directionRef refs') IDLE))
      (Scene.frameIndexRef refs') = Some frameValue.
Proof.
  destruct frameIndex_stays_in_bounds as (_ & _ & Hframe & _).
  destruct (Hframe (mkCharacterStatus (mkVector3 1 0 0) (mkVector3 0 0 0))
              IDLE 10 (Scene.mkRefs south 0.09 5%nat WALK))
    as (refs' & offset & Hrun & _ & _ & f & Hnth).
  - unfold Scene.frameIndexInBounds. simpl. lia.
  - exists refs', offset, f. split; [exact Hrun | exact Hnth].
Defined.

(** The equal lengths of [SPRITE_MAP] matter: in a table whose WALK sequence
    is shorter facing north, turning north in mid-walk leaves the index
    outside the new sequence, and [frames[frameIndex]] finds nothing. *)
Example scene_uneven_table_leaves_bounds :
  let short := Scene.mkSequence [0; 1]%Z 10 true in
  let long := Scene.mkSequence [0; 1; 2; 3; 4; 5]%Z 10 true in
  let spriteMap := fun facing : FacingDirection =>
    match facing with
    | north =>
        Scene.mkSpriteDefinition 1
          (Scene.mkSequences short (Some short) None None None None None)
    | _ =>
        Scene.mkSpriteDefinition 0
          (Scene.mkSequences long (Some long) None None None None None)
    end in
  exists elapsed offsetY,
    Scene.useFrameIn spriteMap
      (mkCharacterStatus (mkVector3 0 0 (-1)) (mkVector3 0 0 0))
      WALK 0.01 (Scene.mkRefs south 0 5%nat WALK) =
    Some (Scene.mkRefs north elapsed 5%nat WALK, Scene.mkOffset None offsetY).
Proof. eexists _, _. vm_compute. reflexivity. Qed.

(** ** Texture offset (C7, C8) *)

(** A non-negative frame value is wrapped into the columns of the atlas. *)
Lemma scene_atlasOffset_wraps (row frameValue : Z) :
  (0 <= frameValue)%Z ->
  exists u,
    Scene.offsetX (Scene.atlasOffset row (Some frameValue)) = Some u /\
    u == inject_Z (frameValue mod 12) / 12 /\
    0 <= u /\ u <= 1 - 1 / 12.
Proof.
  intros Hpos. unfold Scene.atlasOffset, Scene.SPRITE_COLUMNS. simpl.
  eexists. split; [reflexivity|].
  rewrite Z.rem_mod_nonneg by lia.
  pose proof (Z.mod_pos_bound frameValue 12 ltac:(lia)) as [Hlo Hhi].
  assert (Hlo' : inject_Z 0 <= inject_Z (frameValue mod 12))
    by (rewrite <- Zle_Qle; exact Hlo).
  assert (Hhi' : inject_Z (frameValue mod 12) <= inject_Z 11)
    by (rewrite <- Zle_Qle; lia).
  change (inject_Z 0) with 0 in Hlo'. change (inject_Z 11) with 11 in Hhi'.
  change (inject_Z 12) with 12.
  split; [reflexivity|]. split.
  - apply Qle_shift_div_l; lra.
  - apply Qle_shift_div_r; [reflexivity|].
    setoid_replace ((1 - 1 / 12) * 12) with 11 by reflexivity. exact Hhi'.
Qed.

(** [%] keeps the sign of the frame value: only non-negative frame values
    are wrapped into the columns. *)
Example scene_atlasOffset_negative_frame :
  exists u,
    Scene.offsetX (Scene.atlasOffset 0 (Some (-1)%Z)) = Some u /\
    u == - (1 / 12).
Proof. eexists. split; reflexivity. Qed.

(** Every frame value and every row of [SPRITE_MAP] lies inside the atlas. *)
Lemma scene_SPRITE_MAP_in_atlas (facing : FacingDirection)
  (status : CharacterAnimationStatus) (frameIndex : nat) (frameValue : Z) :
  nth_error (Scene.frames (Scene.getSequence facing status)) frameIndex =
    Some frameValue ->
  (0 <= frameValue < 12)%Z /\ (0 <= Scene.row (Scene.SPRITE_MAP facing) < 12)%Z.
Proof.
  intros Hnth. split.
  - assert (Hin : In frameValue (Scene.frames (Scene.getSequence facing status)))
      by (eapply nth_error_In; exact Hnth).
    destruct facing, status; simpl in Hin; intuition lia.
  - destruct facing; simpl; lia.
Qed.

Lemma scene_offsetY_bounds (row : Z) (frameValue : option Z) :
  (0 <= row < 12)%Z ->
  0 <= Scene.offsetY (Scene.atlasOffset row frameValue) /\
  Scene.offsetY (Scene.atlasOffset row frameValue) <= 1 - 1 / 12.
Proof.
  intros [Hlo Hhi]. unfold Scene.atlasOffset, Scene.SPRITE_ROWS. simpl.
  assert (Hlo' : inject_Z 0 <= inject_Z row) by (rewrite <- Zle_Qle; exact Hlo).
  assert (Hhi' : inject_Z row <= inject_Z 11) by (rewrite <- Zle_Qle; lia).
  change (inject_Z 0) with 0 in Hlo'. change (inject_Z 11) with 11 in Hhi'.
  change (inject_Z 12) with 12. split.
  - apply Qle_shift_div_l; lra.
  - apply Qle_shift_div_r; [reflexivity|].
    setoid_replace ((1 - 1 / 12) * 12) with 11 by reflexivity. exact Hhi'.
Qed.

(** C7: with the 12x12 atlas and [SPRITE_MAP], every frame run from refs the
    component can reach sets an offset with [offsetX] and [offsetY] in
    [[0, 1 - 1/12]]; and the frame value is reduced modulo the 12 columns
    before the division, so every non-negative frame value, however large,
    gives an [offsetX] in that range. *)
Theorem atlasOffset_within_atlas :
  (forall (cs : CharacterStatus) (animationStatus : CharacterAnimationStatus)
          (delta : Q) (refs refs' : Scene.Refs) (offset : Scene.TextureOffset),
      Scene.reachable refs ->
      Scene.useFrame cs animationStatus delta refs = Some (refs', offset) ->
      exists u,
        Scene.offsetX offset = Some u /\
        0 <= u /\ u <= 1 - 1 / 12 /\
        0 <= Scene.offsetY offset /\ Scene.offsetY offset <= 1 - 1 / 12) /\
  (forall row frameValue : Z,
      (0 <= frameValue)%Z ->
      exists u,
        Scene.offsetX (Scene.atlasOffset row (Some frameValue)) = Some u /\
        u == inject_Z (frameValue mod 12) / 12 /\
        0 <= u /\ u <= 1 - 1 / 12).
Proof.
  split; [|exact scene_atlasOffset_wraps].
  intros cs animationStatus delta refs refs' offset Hreach Hframe.
  destruct (scene_useFrame_bounds cs animationStatus delta refs
              (scene_reachable_bounds refs Hreach))
    as (r & o & Hframe' & Hinv & Hstatus & Hoffset).
  rewrite Hframe in Hframe'. injection Hframe' as <- <-.
  unfold Scene.frameIndexInBounds in Hinv. rewrite Hstatus in Hinv.
  destruct (nth_error
              (Scene.frames
                 (Scene.getSequence (Scene.directionRef refs') animationStatus))
              (Scene.frameIndexRef refs')) as [f|] eqn:Hnth;
    [|apply nth_error_None in Hnth; lia].
  destruct (scene_SPRITE_MAP_in_atlas _ _ _ _ Hnth) as [Hf Hrow].
  destruct (scene_atlasOffset_wraps
              (Scene.row (Scene.SPRITE_MAP (Scene.directionRef refs'))) f)
    as (u & Hu & _ & Hu0 & Hu1); [lia|].
  destruct (scene_offsetY_bounds
              (Scene.row (Scene.SPRITE_MAP (Scene.directionRef refs')))
              (Some f) Hrow) as [Hy0 Hy1].
  rewrite Hoffset. exists u. repeat split; assumption.
Qed.

Lemma atlasOffset_within_atlas_witness :
  (exists refs' offset u,
     Scene.useFrame (mkCharacterStatus (mkVector3 1 0 0) (mkVector3 0 0 0))
       IDLE 0.7 (Scene.initialRefs IDLE) = Some (refs', offset) /\
     Scene.offsetX offset = Some u /\ 0 <= u /\ u <= 1 - 1 / 12 /\
     0 <= Scene.offsetY offset /\ Scene.offsetY offset <= 1 - 1 / 12) /\
  (exists u,
     Scene.offsetX (Scene.atlasOffset 0 (Some 29%Z)) = Some u /\
     u == 5 / 12).
Proof.
  destruct atlasOffset_within_atlas as (Hreach & Hwrap).
  split.
  - destruct (scene_useFrameIn_result Scene.SPRITE_MAP
                (mkCharacterStatus (mkVector3 1 0 0) (mkVector3 0 0 0))
                IDLE 0.7 (Scene.initialRefs IDLE)) as (i & e & _ & Hframe).
    destruct (Hreach _ _ _ _ _ _ (Scene.reachable_mount IDLE) Hframe)
      as (u & Hbounds).
    eexists _, _, u. split; [exact Hframe | exact Hbounds].
  - destruct (Hwrap 0%Z 29%Z ltac:(lia)) as (u & Hu & Hmod & _).
    exists u. split; [exact Hu | rewrite Hmod; reflexivity].
Defined.

(** C8, as stated, fails for the 8x4 component: facing south, whose entry
    in [DIRECTION_ROW] is 0, it sets [offsetY = 1 - 1/4], not [0/4]. *)
Lemma character_offsetY_counterexample :
  ~ (forall (cs : CharacterStatus) (animationStatus : CharacterAnimationStatus)
            (delta : Q) (refs refs' : Character.Refs)
            (offset : Character.TextureOffset),
        Character.useFrame cs animationStatus delta refs = Some (refs', offset) ->
        Character.offsetY offset ==
          inject_Z (Character.DIRECTION_ROW (Character.directionRef refs')) /
          inject_Z Character.SPRITE_ROWS).
Proof.
  intros H.
  specialize (H (mkCharacterStatus (mkVector3 0 0 0) (mkVector3 0 0 0))
                IDLE 0 (Character.initialRefs IDLE)
                (Character.mkRefs south 0%nat (0 + 0) IDLE)
                (Character.atlasOffset 0 0) eq_refl).
  vm_compute in H. discriminate H.
Qed.

(** C8, amended: the 12x12 component sets
    [offsetX = (frameValue % columns) / columns], with [%] the remainder
    that agrees with [mod] on non-negative frame values, and
    [offsetY = row / rows] for the row of the direction in the table; the
    8x4 component sets [offsetX = (frameIndex mod columns) / columns] and
    [offsetY = 1 - (row + 1) / rows] for the direction's entry in
    [DIRECTION_ROW]. *)
Theorem atlasOffset_formula :
  (forall (spriteMap : FacingDirection -> Scene.SpriteDefinition)
          (cs : CharacterStatus) (animationStatus : CharacterAnimationStatus)
          (delta : Q) (refs refs' : Scene.Refs) (offset : Scene.TextureOffset),
      Scene.useFrameIn spriteMap cs animationStatus delta refs =
        Some (refs', offset) ->
      Scene.offsetX offset =
        option_map
          (fun frameValue =>
             inject_Z (Z.rem frameValue Scene.SPRITE_COLUMNS) /
             inject_Z Scene.SPRITE_COLUMNS)
          (nth_error
             (Scene.frames
                (Scene.getSequenceIn spriteMap (Scene.directionRef refs')
                   animationStatus))
             (Scene.frameIndexRef refs')) /\
      Scene.offsetY offset =
        inject_Z (Scene.row (spriteMap (Scene.directionRef refs'))) /
        inject_Z Scene.SPRITE_ROWS) /\
  (forall frameValue : Z,
      (0 <= frameValue)%Z ->
      Z.rem frameValue Scene.SPRITE_COLUMNS =
        (frameValue mod Scene.SPRITE_COLUMNS)%Z) /\
  (forall (cs : CharacterStatus) (animationStatus : CharacterAnimationStatus)
          (delta : Q) (refs refs' : Character.Refs)
          (offset : Character.TextureOffset),
      Character.useFrame cs animationStatus delta refs = Some (refs', offset) ->
      Character.offsetX offset =
        inject_Z (Z.of_nat (Character.frameIndexRef refs'
                            mod Character.SPRITE_COLUMNS)) /
        inject_Z (Z.of_nat Character.SPRITE_COLUMNS) /\
      Character.offsetY offset =
        1 - (inject_Z (Character.DIRECTION_ROW (Character.directionRef refs')) + 1) /
            inject_Z Character.SPRITE_ROWS).
Proof.
  split; [|split].
  - intros spriteMap cs animationStatus delta refs refs' offset Hframe.
    destruct (scene_useFrameIn_result spriteMap cs animationStatus delta refs)
      as (i & e & _ & Hframe').
    rewrite Hframe in Hframe'. injection Hframe' as -> ->. simpl.
    split; [|reflexivity].
    destruct (nth_error _ i); reflexivity.
  - intros frameValue Hpos. apply Z.rem_mod_nonneg; unfold Scene.SPRITE_COLUMNS; lia.
  - intros cs animationStatus delta refs refs' offset Hframe.
    destruct (character_useFrame_result cs animationStatus delta refs)
      as (i & e & _ & Hframe').
    rewrite Hframe in Hframe'. injection Hframe' as -> ->. simpl.
    split; reflexivity.
Qed.

Lemma atlasOffset_formula_witness :
  (exists refs' offset,
     Scene.useFrame (mkCharacterStatus (mkVector3 0 0 1) (mkVector3 0 0 0))
       WALK 0.25 (Scene.initialRefs WALK) = Some (refs', offset) /\
     Scene.frameIndexRef refs' = 2%nat /\
     Scene.offsetX offset = Some (inject_Z 2 / inject_Z 12) /\
     Scene.offsetY offset = inject_Z 0 / inject_Z 12) /\
  (exists refs' offset,
     Character.useFrame (mkCharacterStatus (mkVector3 0 0 0) (mkVector3 0 0 0))
       WALK 0.25 (Character.initialRefs WALK) = Some (refs', offset) /\
     Character.offsetX offset = inject_Z 2 / inject_Z 8 /\
     Character.offsetY offset = 1 - (inject_Z 0 + 1) / inject_Z 4).
Proof.
  destruct atlasOffset_formula as (Hscene & _ & Hcharacter).
  split.
  - destruct (scene_useFrameIn_result Scene.SPRITE_MAP
                (mkCharacterStatus (mkVector3 0 0 1) (mkVector3 0 0 0))
                WALK 0.25 (Scene.initialRefs WALK)) as (i & e & Hclock & Hframe).
    assert (Hi : i = 2%nat).
    { vm_compute in Hclock. injection Hclock as Hi _. symmetry. exact Hi. }
    subst i.
    destruct (Hscene _ _ _ _ _ _ _ Hframe) as (Hx & Hy).
    eexists _, _. split; [exact Hframe|].
    split; [reflexivity|]. split; [exact Hx | exact Hy].
  - destruct (character_useFrame_result
                (mkCharacterStatus (mkVector3 0 0 0) (mkVector3 0 0 0))
                WALK 0.25 (Character.initialRefs WALK)) as (i & e & Hclock & Hframe).
    assert (Hi : i = 2%nat).
    { vm_compute in Hclock. injection Hclock as Hi _. symmetry. exact Hi. }
    subst i.
    destruct (Hcharacter _ _ _ _ _ _ Hframe) as (Hx & Hy).
    eexists _, _. split; [exact Hframe|]. split; [exact Hx | exact Hy].
Defined.

(** * Further properties of the components *)

(** ** Elapsed time left by a frame *)

Lemma scene_handleStatusChange_elapsed (animationStatus : CharacterAnimationStatus)
  (refs : Scene.Refs) :
  0 <= Scene.elapsedRef refs ->
  0 <= Scene.elapsedRef (Scene.handleStatusChange animationStatus refs).
Proof.
  intros H. unfold Scene.handleStatusChange.
  destruct (status_neq _ _); simpl; [discriminate | exact H].
Qed.

Lemma character_handleStatusChange_elapsed
  (animationStatus : CharacterAnimationStatus) (refs : Character.Refs) :
  0 <= Character.elapsedRef refs ->
  0 <= Character.elapsedRef (Character.handleStatusChange animationStatus refs).
Proof.
  intros H. unfold Character.handleStatusChange.
  destruct (status_neq _ _); simpl; [discriminate | exact H].
Qed.

(** X4: in both components, a frame with a non-negative delta run from refs
    with a non-negative elapsed time leaves an elapsed time that is
    non-negative, below one frame duration when the sequence in play has
    more than one frame and a positive fps, and [0] otherwise: the time
    carried to the next frame never holds a whole frame. *)
Theorem useFrame_leaves_less_than_a_frame :
  (forall (spriteMap : FacingDirection -> Scene.SpriteDefinition)
          (cs : CharacterStatus) (animationStatus : CharacterAnimationStatus)
          (delta : Q) (refs : Scene.Refs),
      0 <= delta -> 0 <= Scene.elapsedRef refs ->
      exists refs' offset,
        Scene.useFrameIn spriteMap cs animationStatus delta refs =
          Some (refs', offset) /\
        let sequence :=
          Scene.getSequenceIn spriteMap (Scene.directionRef refs')
            animationStatus in
        0 <= Scene.elapsedRef refs' /\
        ((1 < length (Scene.frames sequence))%nat -> 0 < Scene.fps sequence ->
           Scene.elapsedRef refs' < 1 / Scene.fps sequence) /\
        ((length (Scene.frames sequence) <= 1)%nat \/ Scene.fps sequence <= 0 ->
           Scene.elapsedRef refs' = 0)) /\
  (forall (cs : CharacterStatus) (animationStatus : CharacterAnimationStatus)
          (delta : Q) (refs : Character.Refs),
      0 <= delta -> 0 <= Character.elapsedRef refs ->
      exists refs' offset,
        Character.useFrame cs animationStatus delta refs = Some (refs', offset) /\
        let config := Character.ANIMATION_CONFIG animationStatus in
        0 <= Character.elapsedRef refs' /\
        ((1 < Character.frameCount config)%nat ->
           Character.elapsedRef refs' < 1 / Character.speedFps config) /\
        ((Character.frameCount config <= 1)%nat ->
           Character.elapsedRef refs' = 0)).
Proof.
  split.
  - intros spriteMap cs animationStatus delta refs Hdelta He.
    destruct (scene_useFrameIn_result spriteMap cs animationStatus delta refs)
      as (i & e & Hclock & Hframe).
    eexists _, _. split; [exact Hframe|]. simpl.
    pose proof (scene_handleStatusChange_elapsed animationStatus refs He) as He'.
    set (sequence := Scene.getSequenceIn spriteMap
                       (updateDirection cs (Scene.directionRef refs))
                       animationStatus) in *.
    set (reset := Scene.handleStatusChange animationStatus refs) in *.
    split; [|split].
    + destruct (le_lt_dec (length (Scene.frames sequence)) 1) as [Hlen|Hlen].
      { rewrite scene_advanceFrame_static in Hclock by (left; assumption).
        injection Hclock as _ <-. discriminate. }
      destruct (Qlt_le_dec 0 (Scene.fps sequence)) as [Hfps|Hfps].
      * destruct (scene_advanceFrame_playing sequence delta
                    (Scene.frameIndexRef reset) (Scene.elapsedRef reset) Hlen Hfps)
          as (e1 & Hrun & He1 & _).
        rewrite Hrun in Hclock. injection Hclock as _ <-.
        rewrite He1. apply wholeFrames_remainder_nonneg;
          [apply frameDuration_pos, Hfps | lra].
      * rewrite scene_advanceFrame_static in Hclock by (right; assumption).
        injection Hclock as _ <-. discriminate.
    + intros Hlen Hfps.
      destruct (scene_advanceFrame_playing sequence delta
                    (Scene.frameIndexRef reset) (Scene.elapsedRef reset) Hlen Hfps)
        as (e1 & Hrun & _ & Hlt).
      rewrite Hrun in Hclock. injection Hclock as _ <-. exact Hlt.
    + intros Hstatic.
      rewrite scene_advanceFrame_static in Hclock by assumption.
      injection Hclock as _ <-. reflexivity.
  - intros cs animationStatus delta refs Hdelta He.
    destruct (character_useFrame_result cs animationStatus delta refs)
      as (i & e & Hclock & Hframe).
    eexists _, _. split; [exact Hframe|]. simpl.
    pose proof (character_handleStatusChange_elapsed animationStatus refs He)
      as He'.
    set (config := Character.ANIMATION_CONFIG animationStatus) in *.
    set (reset := Character.handleStatusChange animationStatus refs) in *.
    assert (Hfps : 0 < Character.speedFps config)
      by (destruct animationStatus; reflexivity).
    split; [|split].
    + destruct (le_lt_dec (Character.frameCount config) 1) as [Hlen|Hlen].
      { rewrite character_advanceFrame_static in Hclock by (left; assumption).
        injection Hclock as _ <-. discriminate. }
      destruct (character_advanceFrame_playing config delta
                  (Character.frameIndexRef reset) (Character.elapsedRef reset)
                  Hlen Hfps)
        as (e1 & Hrun & He1 & _).
      rewrite Hrun in Hclock. injection Hclock as _ <-.
      rewrite He1. apply wholeFrames_remainder_nonneg;
        [apply frameDuration_pos, Hfps | lra].
    + intros Hlen.
      destruct (character_advanceFrame_playing config delta
                  (Character.frameIndexRef reset) (Character.elapsedRef reset)
                  Hlen Hfps)
        as (e1 & Hrun & _ & Hlt).
      rewrite Hrun in Hclock. injection Hclock as _ <-. exact Hlt.
    + intros Hstatic.
      rewrite character_advanceFrame_static in Hclock by (left; assumption).
      injection Hclock as _ <-. reflexivity.
Qed.

Lemma useFrame_leaves_less_than_a_frame_witness :
  (exists refs' offset,
     Scene.useFrame (mkCharacterStatus (mkVector3 0 0 1) (mkVector3 0 0 0))
       WALK 1.234 (Scene.mkRefs south 0.09 3%nat WALK) = Some (refs', offset) /\
     0 <= Scene.elapsedRef refs' /\ Scene.elapsedRef refs' < 1 / 10) /\
  (exists refs' offset,
     Character.useFrame (mkCharacterStatus (mkVector3 0 0 1) (mkVector3 0 0 0))
       JUMP_START 1.234 (Character.mkRefs south 0%nat 0.4 JUMP_START) =
       Some (refs', offset) /\
     Character.elapsedRef refs' = 0).
Proof.
  destruct useFrame_leaves_less_than_a_frame as (Hscene & Hcharacter).
  split.
  - destruct (Hscene Scene.SPRITE_MAP
                (mkCharacterStatus (mkVector3 0 0 1) (mkVector3 0 0 0))
                WALK 1.234 (Scene.mkRefs south 0.09 3%nat WALK))
      as (refs' & offset & Hframe & Hpos & Hlt & _);
      [discriminate | discriminate |].
    exists refs', offset. split; [exact Hframe|]. split; [exact Hpos|].
    assert (Hdir : Scene.directionRef refs' = south).
    { vm_compute in Hframe. injection Hframe as <- _. reflexivity. }
    rewrite Hdir in Hlt. apply Hlt; [simpl; lia | reflexivity].
  - destruct (Hcharacter
                (mkCharacterStatus (mkVector3 0 0 1) (mkVector3 0 0 0))
                JUMP_START 1.234 (Character.mkRefs south 0%nat 0.4 JUMP_START))
      as (refs' & offset & Hframe & _ & _ & Hzero);
      [discriminate | discriminate |].
    exists refs', offset. split; [exact Hframe|]. apply Hzero. simpl. lia.
Defined.

(** ** The 8x4 component stays inside its atlas *)

Lemma character_frameCount_bounds (status : CharacterAnimationStatus) :
  (1 <= Character.frameCount (Character.ANIMATION_CONFIG status) <=
     Character.SPRITE_COLUMNS)%nat.
Proof. destruct status; simpl; unfold Character.SPRITE_COLUMNS; lia. Qed.

Lemma character_advanceFrame_bound (config : Character.AnimationConfig)
  (delta : Q) (frameIndex : nat) (elapsed : Q) (frameIndex' : nat)
  (elapsed' : Q) :
  (frameIndex < Character.frameCount config)%nat ->
  Character.advanceFrame config delta frameIndex elapsed =
    Some (frameIndex', elapsed') ->
  (frameIndex' < Character.frameCount config)%nat.
Proof.
  intros Hlt Hrun.
  destruct (le_lt_dec (Character.frameCount config) 1) as [Hlen|Hlen].
  - rewrite character_advanceFrame_static in Hrun by (left; assumption).
    injection Hrun as <- _. lia.
  - destruct (Qlt_le_dec 0 (Character.speedFps config)) as [Hfps|Hfps].
    + destruct (character_advanceFrame_playing config delta frameIndex elapsed
                  Hlen Hfps) as (e' & H & _).
      rewrite H in Hrun. injection Hrun as <- _.
      rewrite character_iter_loop by assumption.
      apply Nat.mod_upper_bound. lia.
    + rewrite character_advanceFrame_static in Hrun by (right; assumption).
      injection Hrun as <- _. lia.
Qed.

Lemma character_useFrame_bounds (cs : CharacterStatus)
  (animationStatus : CharacterAnimationStatus) (delta : Q)
  (refs refs' : Character.Refs) (offset : Character.TextureOffset) :
  Character.frameIndexInBounds refs ->
  Character.useFrame cs animationStatus delta refs = Some (refs', offset) ->
  Character.frameIndexInBounds refs' /\
  Character.previousStatusRef refs' = animationStatus /\
  offset =
    Character.atlasOffset (Character.DIRECTION_ROW (Character.directionRef refs'))
      (Character.frameIndexRef refs').
Proof.
  intros Hinv Hframe.
  destruct (character_useFrame_result cs animationStatus delta refs)
    as (i & e & Hclock & Hframe').
  rewrite Hframe in Hframe'. injection Hframe' as -> ->. simpl.
  split; [|split; reflexivity].
  unfold Character.frameIndexInBounds. simpl.
  eapply character_advanceFrame_bound; [|exact Hclock].
  unfold Character.handleStatusChange, status_neq.
  destruct (status_eq_dec (Character.previousStatusRef refs) animationStatus)
    as [Heq|Hneq]; simpl.
  - rewrite <- Heq. exact Hinv.
  - pose proof (character_frameCount_bounds animationStatus). lia.
Qed.

Lemma character_reachable_bounds (refs : Character.Refs) :
  Character.reachable refs -> Character.frameIndexInBounds refs.
Proof.
  intros Hreach.
  induction Hreach as [status | cs status delta refs refs' offset _ IH Hframe].
  - unfold Character.frameIndexInBounds. simpl.
    pose proof (character_frameCount_bounds status). lia.
  - eapply character_useFrame_bounds; eassumption.
Qed.

(** X5: every frame the 8x4 component runs from refs it can reach leaves a
    frame index below the frame count of the status in play, which is at
    most the 8 columns, so the [% SPRITE_COLUMNS] changes nothing:
    [offsetX] is [frameIndex / 8], within [[0, 1 - 1/8]], and [offsetY] is
    within [[0, 1 - 1/4]]. *)
Theorem character_offset_within_atlas :
  forall (cs : CharacterStatus) (animationStatus : CharacterAnimationStatus)
         (delta : Q) (refs refs' : Character.Refs)
         (offset : Character.TextureOffset),
    Character.reachable refs ->
    Character.useFrame cs animationStatus delta refs = Some (refs', offset) ->
    (Character.frameIndexRef refs' <
       Character.frameCount (Character.ANIMATION_CONFIG animationStatus))%nat /\
    Character.offsetX offset =
      inject_Z (Z.of_nat (Character.frameIndexRef refs')) / 8 /\
    0 <= Character.offsetX offset /\ Character.offsetX offset <= 1 - 1 / 8 /\
    0 <= Character.offsetY offset /\ Character.offsetY offset <= 1 - 1 / 4.
Proof.
  intros cs animationStatus delta refs refs' offset Hreach Hframe.
  destruct (character_useFrame_bounds cs animationStatus delta refs refs' offset
              (character_reachable_bounds refs Hreach) Hframe)
    as (Hinv & Hstatus & ->).
  unfold Character.frameIndexInBounds in Hinv. rewrite Hstatus in Hinv.
  pose proof (character_frameCount_bounds animationStatus) as [_ Hcols].
  unfold Character.SPRITE_COLUMNS in Hcols.
  split; [exact Hinv|].
  unfold Character.atlasOffset.
  cbn [Character.offsetX Character.offsetY].
  unfold Character.SPRITE_COLUMNS, Character.SPRITE_ROWS.
  rewrite Nat.mod_small by lia.
  set (i := Character.frameIndexRef refs') in *.
  assert (Hi0 : inject_Z 0 <= inject_Z (Z.of_nat i))
    by (rewrite <- Zle_Qle; lia).
  assert (Hi7 : inject_Z (Z.of_nat i) <= inject_Z 7)
    by (rewrite <- Zle_Qle; lia).
  change (inject_Z 0) with 0 in Hi0. change (inject_Z 7) with 7 in Hi7.
  change (inject_Z (Z.of_nat 8)) with 8. change (inject_Z 4) with 4.
  split; [reflexivity|].
  split; [apply Qle_shift_div_l; lra|].
  split.
  { apply Qle_shift_div_r; [reflexivity|].
    setoid_replace ((1 - 1 / 8) * 8) with 7 by reflexivity. exact Hi7. }
  destruct (Character.directionRef refs'); simpl; split; discriminate.
Qed.

Lemma character_offset_within_atlas_witness :
  exists refs' offset,
    Character.useFrame (mkCharacterStatus (mkVector3 (-1) 0 0) (mkVector3 0 0 0))
      RUN 0.6 (Character.initialRefs RUN) = Some (refs', offset) /\
    (Character.frameIndexRef refs' < 8)%nat /\
    Character.offsetX offset =
      inject_Z (Z.of_nat (Character.frameIndexRef refs')) / 8 /\
    Character.offsetY offset <= 1 - 1 / 4.
Proof.
  destruct (character_useFrame_result
              (mkCharacterStatus (mkVector3 (-1) 0 0) (mkVector3 0 0 0))
              RUN 0.6 (Character.initialRefs RUN)) as (i & e & _ & Hframe).
  destruct (character_offset_within_atlas _ _ _ _ _ _
              (Character.reachable_mount RUN) Hframe)
    as (Hidx & Hx & _ & _ & _ & Hy).
  eexists _, _. split; [exact Hframe|].
  split; [exact Hidx|]. split; [exact Hx | exact Hy].
Defined.

(** ** More on the direction resolver *)

Lemma Qabs_cases (a : Q) :
  (0 <= a /\ Qabs a == a) \/ (a <= 0 /\ Qabs a == - a).
Proof.
  apply Qabs_case; intros H; [left | right]; split; try assumption; reflexivity.
Qed.

(** X6: past the length test the resolver reads only the horizontal
    components: two vectors of squared length at least 1e-6 with the same
    [x] and [z] resolve to the same direction, whatever their heights. *)
Theorem resolveFacingDirection_ignores_height :
  forall v w : Vector3,
    x v == x w -> z v == z w ->
    1e-6 <= lengthSq v -> 1e-6 <= lengthSq w ->
    resolveFacingDirection v = resolveFacingDirection w.
Proof.
  intros v w Hx Hz Hv Hw. unfold resolveFacingDirection.
  apply js_lt_false_iff in Hv, Hw. rewrite Hv, Hw. cbv zeta.
  rewrite !dot_WORLD_RIGHT, !dot_WORLD_FORWARD.
  assert (Habs : js_gt (Qabs (x v)) (Qabs (z v)) =
                 js_gt (Qabs (x w)) (Qabs (z w))) by (rewrite Hx, Hz; reflexivity).
  assert (Hright : js_gt (x v) 0 = js_gt (x w) 0) by (rewrite Hx; reflexivity).
  assert (Hforward : js_gt (z v) 0 = js_gt (z w) 0) by (rewrite Hz; reflexivity).
  rewrite Habs, Hright, Hforward. reflexivity.
Qed.

Lemma resolveFacingDirection_ignores_height_witness :
  resolveFacingDirection (mkVector3 0.3 0 (-0.2)) =
  resolveFacingDirection (mkVector3 0.3 7 (-0.2)).
Proof.
  apply (resolveFacingDirection_ignores_height
           (mkVector3 0.3 0 (-0.2)) (mkVector3 0.3 7 (-0.2)));
    try reflexivity; vm_compute; discriminate.
Defined.

(** X7: a movement that is purely vertical and longer than the epsilon
    resolves to north, and in both components a frame with such a
    [movingDir] stores north, whatever direction was stored and whatever
    [inputDir] is. *)
Theorem vertical_movement_faces_north :
  forall (height : Q) (input : Vector3),
    1e-6 < height * height ->
    let cs := mkCharacterStatus (mkVector3 0 height 0) input in
    resolveFacingDirection (mkVector3 0 height 0) = north /\
    (forall (spriteMap : FacingDirection -> Scene.SpriteDefinition)
            (animationStatus : CharacterAnimationStatus) (delta : Q)
            (refs : Scene.Refs),
        exists refs' offset,
          Scene.useFrameIn spriteMap cs animationStatus delta refs =
            Some (refs', offset) /\
          Scene.directionRef refs' = north) /\
    (forall (animationStatus : CharacterAnimationStatus) (delta : Q)
            (refs : Character.Refs),
        exists refs' offset,
          Character.useFrame cs animationStatus delta refs =
            Some (refs', offset) /\
          Character.directionRef refs' = north).
Proof.
  intros height input Hlong cs.
  assert (Hlen : 1e-6 < lengthSq (mkVector3 0 height 0)).
  { unfold lengthSq; simpl. lra. }
  assert (Hnorth : resolveFacingDirection (mkVector3 0 height 0) = north).
  { unfold resolveFacingDirection.
    replace (js_lt (lengthSq (mkVector3 0 height 0)) 1e-6) with false
      by (symmetry; apply js_lt_false_iff; lra).
    cbv zeta.
    replace (js_gt (Qabs (dot (mkVector3 0 height 0) WORLD_RIGHT))
               (Qabs (dot (mkVector3 0 height 0) WORLD_FORWARD))) with false.
    - replace (js_gt (dot (mkVector3 0 height 0) WORLD_FORWARD) 0) with false;
        [reflexivity|].
      symmetry. apply js_gt_false_iff. rewrite dot_WORLD_FORWARD. simpl. lra.
    - symmetry. apply js_gt_false_iff.
      rewrite dot_WORLD_RIGHT, dot_WORLD_FORWARD. simpl. lra. }
  assert (Hupdate : forall current, updateDirection cs current = north).
  { intros current.
    destruct (updateDirection_cases cs current) as (Hmoving & _).
    rewrite Hmoving by exact Hlen. exact Hnorth. }
  split; [exact Hnorth|]. split.
  - intros spriteMap animationStatus delta refs.
    destruct (scene_useFrameIn_result spriteMap cs animationStatus delta refs)
      as (i & e & _ & Hframe).
    eexists _, _. split; [exact Hframe|]. simpl. apply Hupdate.
  - intros animationStatus delta refs.
    destruct (character_useFrame_result cs animationStatus delta refs)
      as (i & e & _ & Hframe).
    eexists _, _. split; [exact Hframe|]. simpl. apply Hupdate.
Qed.

Lemma vertical_movement_faces_north_witness :
  exists refs' offset,
    Scene.useFrame (mkCharacterStatus (mkVector3 0 (-3) 0) (mkVector3 1 0 0))
      JUMP_FALL 0.016 (Scene.mkRefs east 0 0%nat JUMP_FALL) =
      Some (refs', offset) /\
    Scene.directionRef refs' = north.
Proof.
  destruct (vertical_movement_faces_north (-3) (mkVector3 1 0 0))
    as (_ & Hscene & _); [reflexivity|].
  apply (Hscene Scene.SPRITE_MAP JUMP_FALL 0.016
           (Scene.mkRefs east 0 0%nat JUMP_FALL)).
Defined.

Lemma lengthSq_negate (v : Vector3) :
  lengthSq (multiplyScalar (-1) v) == lengthSq v.
Proof. unfold lengthSq, multiplyScalar; simpl. ring. Qed.

(** X8: turning a vector around turns the resolved direction around: for a
    vector of squared length at least 1e-6 that is not purely vertical, the
    opposite vector resolves to the opposite direction. *)
Theorem resolveFacingDirection_reverse :
  forall v : Vector3,
    1e-6 <= lengthSq v -> (~ x v == 0 \/ ~ z v == 0) ->
    match resolveFacingDirection v with
    | south => resolveFacingDirection (multiplyScalar (-1) v) = north
    | north => resolveFacingDirection (multiplyScalar (-1) v) = south
    | east => resolveFacingDirection (multiplyScalar (-1) v) = west
    | west => resolveFacingDirection (multiplyScalar (-1) v) = east
    end.
Proof.
  intros v Hv Hflat. unfold resolveFacingDirection.
  replace (js_lt (lengthSq v) 1e-6) with false
    by (symmetry; apply js_lt_false_iff; assumption).
  replace (js_lt (lengthSq (multiplyScalar (-1) v)) 1e-6) with false
    by (symmetry; apply js_lt_false_iff; rewrite lengthSq_negate; assumption).
  cbv zeta.
  pose proof (dot_WORLD_RIGHT v) as Er.
  pose proof (dot_WORLD_FORWARD v) as Ef.
  pose proof (dot_multiplyScalar (-1) v WORLD_RIGHT) as Er'.
  pose proof (dot_multiplyScalar (-1) v WORLD_FORWARD) as Ef'.
  set (r := dot v WORLD_RIGHT) in *. set (f := dot v WORLD_FORWARD) in *.
  set (r' := dot (multiplyScalar (-1) v) WORLD_RIGHT) in *.
  set (f' := dot (multiplyScalar (-1) v) WORLD_FORWARD) in *.
  assert (Har : Qabs r' == Qabs r).
  { rewrite Er'. setoid_replace (-1 * r) with (- r) by ring. apply Qabs_opp. }
  assert (Haf : Qabs f' == Qabs f).
  { rewrite Ef'. setoid_replace (-1 * f) with (- f) by ring. apply Qabs_opp. }
  destruct (Qabs_cases r) as [[? Hr]|[? Hr]];
    destruct (Qabs_cases f) as [[? Hf]|[? Hf]];
    destruct (js_gt (Qabs r) (Qabs f)) eqn:T1;
    destruct (js_gt r 0) eqn:T2;
    destruct (js_gt f 0) eqn:T3;
    destruct (js_gt (Qabs r') (Qabs f')) eqn:T4;
    destruct (js_gt r' 0) eqn:T5;
    destruct (js_gt f' 0) eqn:T6;
    js_props; try reflexivity; exfalso;
    destruct Hflat as [Hflat|Hflat]; apply Hflat; lra.
Qed.

Lemma resolveFacingDirection_reverse_witness :
  resolveFacingDirection (mkVector3 0.2 9 (-0.7)) = north /\
  resolveFacingDirection (multiplyScalar (-1) (mkVector3 0.2 9 (-0.7))) = south.
Proof.
  pose proof (resolveFacingDirection_reverse (mkVector3 0.2 9 (-0.7))) as H.
  assert (Hnorth : resolveFacingDirection (mkVector3 0.2 9 (-0.7)) = north)
    by reflexivity.
  rewrite Hnorth in H. split; [exact Hnorth|].
  apply H; [vm_compute; discriminate | left; vm_compute; discriminate].
Defined.

(** X9: a frame changes the stored direction only on the evidence of a
    vector longer than the epsilon, [movingDir] or [inputDir]: to east when
    its [x] is positive and dominates [z], to west when its [x] is negative
    and dominates, to south when its [z] is positive and [x] does not
    dominate, to north when its [z] is not positive and [x] does not
    dominate.  The resolver's south for short vectors is never stored. *)
Theorem updateDirection_change_is_justified :
  forall (cs : CharacterStatus) (current : FacingDirection),
    updateDirection cs current <> current ->
    exists target : Vector3,
      (target = movingDir cs \/ target = inputDir cs) /\
      1e-6 < lengthSq target /\
      match updateDirection cs current with
      | east => 0 < x target /\ Qabs (z target) < Qabs (x target)
      | west => x target < 0 /\ Qabs (z target) < Qabs (x target)
      | south => 0 < z target /\ Qabs (x target) <= Qabs (z target)
      | north => z target <= 0 /\ Qabs (x target) <= Qabs (z target)
      end.
Proof.
  intros cs current Hchange.
  assert (Hresolve : forall target,
    1e-6 < lengthSq target ->
    match resolveFacingDirection target with
    | east => 0 < x target /\ Qabs (z target) < Qabs (x target)
    | west => x target < 0 /\ Qabs (z target) < Qabs (x target)
    | south => 0 < z target /\ Qabs (x target) <= Qabs (z target)
    | north => z target <= 0 /\ Qabs (x target) <= Qabs (z target)
    end).
  { intros target Hlong. unfold resolveFacingDirection.
    replace (js_lt (lengthSq target) 1e-6) with false
      by (symmetry; apply js_lt_false_iff; lra).
    cbv zeta.
    pose proof (dot_WORLD_RIGHT target) as Er.
    pose proof (dot_WORLD_FORWARD target) as Ef.
    set (r := dot target WORLD_RIGHT) in *.
    set (f := dot target WORLD_FORWARD) in *.
    assert (Har : Qabs r == Qabs (x target)) by (rewrite Er; reflexivity).
    assert (Haf : Qabs f == Qabs (z target)) by (rewrite Ef; reflexivity).
    pose proof (Qabs_nonneg (z target)) as Hz0.
    destruct (Qabs_cases (x target)) as [[? Hx]|[? Hx]];
      destruct (js_gt (Qabs r) (Qabs f)) eqn:T1;
      destruct (js_gt r 0) eqn:T2;
      destruct (js_gt f 0) eqn:T3;
      js_props; split; lra. }
  destruct (updateDirection_cases cs current) as (Hmoving & Hinput & Hkeep).
  destruct (Qlt_le_dec 1e-6 (lengthSq (movingDir cs))) as [Hm|Hm].
  - exists (movingDir cs). split; [left; reflexivity|]. split; [exact Hm|].
    rewrite (Hmoving Hm). apply Hresolve, Hm.
  - destruct (Qlt_le_dec 1e-6 (lengthSq (inputDir cs))) as [Hi|Hi].
    + exists (inputDir cs). split; [right; reflexivity|]. split; [exact Hi|].
      rewrite (Hinput Hm Hi). apply Hresolve, Hi.
    + exfalso. apply Hchange. apply Hkeep; assumption.
Qed.

Lemma updateDirection_change_is_justified_witness :
  exists target : Vector3,
    (target = mkVector3 0 0 0 \/ target = mkVector3 (-0.5) 0 0.1) /\
    1e-6 < lengthSq target /\
    x target < 0 /\ Qabs (z target) < Qabs (x target).
Proof.
  destruct (updateDirection_change_is_justified
              (mkCharacterStatus (mkVector3 0 0 0) (mkVector3 (-0.5) 0 0.1))
              south) as (target & Hchoice & Hlong & Hwest);
    [vm_compute; discriminate|].
  exists target. split; [exact Hchoice|]. split; [exact Hlong | exact Hwest].
Defined.

(** ** The two frame clocks; runs of the callback *)

(** The loop only sees the index update on the indices it goes through. *)
Lemma frameLoop_ext (next1 next2 : nat -> nat) (count : nat) (d : Q) :
  (forall i, (i < count)%nat -> next1 i = next2 i /\ (next1 i < count)%nat) ->
  forall (fuel frameIndex : nat) (elapsed : Q),
    (frameIndex < count)%nat ->
    frameLoop next1 d fuel frameIndex elapsed =
      frameLoop next2 d fuel frameIndex elapsed.
Proof.
  intros Hnext. induction fuel as [|fuel IH]; intros frameIndex elapsed Hlt.
  - reflexivity.
  - simpl. destruct (js_ge elapsed d); [|reflexivity].
    destruct (Hnext frameIndex Hlt) as [Heq Hbound].
    rewrite <- Heq. apply IH, Hbound.
Qed.

(** X10: the frame clock of the 8x4 component is the frame clock of the
    12x12 component on the looping sequence [0, 1, ..., frameCount - 1] at
    the same fps: from an index below the frame count both give the same
    index and elapsed time, and the frame value at that index is the index
    itself. *)
Theorem character_clock_is_scene_clock :
  forall (config : Character.AnimationConfig) (delta : Q) (frameIndex : nat)
         (elapsed : Q),
    (frameIndex < Character.frameCount config)%nat ->
    let sequence :=
      Scene.mkSequence (map Z.of_nat (seq 0 (Character.frameCount config)))
        (Character.speedFps config) true in
    Character.advanceFrame config delta frameIndex elapsed =
      Scene.advanceFrame sequence delta frameIndex elapsed /\
    forall frameIndex' elapsed',
      Character.advanceFrame config delta frameIndex elapsed =
        Some (frameIndex', elapsed') ->
      nth_error (Scene.frames sequence) frameIndex' = Some (Z.of_nat frameIndex').
Proof.
  intros config delta frameIndex elapsed Hlt sequence.
  assert (Hlen : length (Scene.frames sequence) = Character.frameCount config).
  { unfold sequence. simpl. rewrite length_map, length_seq. reflexivity. }
  split.
  - unfold Character.advanceFrame, Scene.advanceFrame. rewrite Hlen.
    change (Scene.fps sequence) with (Character.speedFps config).
    destruct ((Character.frameCount config <=? 1)%nat
              || js_le (Character.speedFps config) 0); [reflexivity|].
    apply frameLoop_ext with (count := Character.frameCount config);
      [|exact Hlt].
    intros i Hi. split.
    + rewrite scene_nextFrameIndex_loop by (try reflexivity; rewrite Hlen; exact Hi).
      rewrite Hlen. reflexivity.
    + apply Nat.mod_upper_bound. lia.
  - intros frameIndex' elapsed' Hrun.
    pose proof (character_advanceFrame_bound _ _ _ _ _ _ Hlt Hrun) as Hbound.
    unfold sequence. simpl.
    rewrite nth_error_map, nth_error_seq.
    replace (frameIndex' <? Character.frameCount config)%nat with true
      by (symmetry; apply Nat.ltb_lt; exact Hbound).
    reflexivity.
Qed.

Lemma character_clock_is_scene_clock_witness :
  Character.advanceFrame (Character.ANIMATION_CONFIG IDLE) 1.3 3%nat 0.2 =
  Scene.advanceFrame (Scene.mkSequence [0; 1; 2; 3]%Z 2 true) 1.3 3%nat 0.2.
Proof.
  apply (character_clock_is_scene_clock
           (Character.ANIMATION_CONFIG IDLE) 1.3 3%nat 0.2).
  simpl. lia.
Defined.

Lemma scene_handleStatusChange_same (refs : Scene.Refs) :
  Scene.handleStatusChange (Scene.previousStatusRef refs) refs = refs.
Proof.
  unfold Scene.handleStatusChange. rewrite status_neq_refl. reflexivity.
Qed.

(** X11: with [SPRITE_MAP], over any run of frames that carry the stored
    animation status, the frame index and the elapsed time of the 12x12
    component are those of the frame clock on the sequence of that status,
    run on the deltas alone: the movement vectors, and the turns they cause,
    neither restart nor shift the animation. *)
Theorem useFrames_follows_frame_clock :
  forall (animationStatus : CharacterAnimationStatus)
         (inputs : list (CharacterStatus * Q)) (facing : FacingDirection)
         (refs : Scene.Refs),
    Scene.previousStatusRef refs = animationStatus ->
    exists refs',
      Scene.useFrames animationStatus inputs refs = Some refs' /\
      Scene.advanceFrames (Scene.getSequence facing animationStatus)
        (map snd inputs) (Scene.frameIndexRef refs) (Scene.elapsedRef refs) =
        Some (Scene.frameIndexRef refs', Scene.elapsedRef refs') /\
      Scene.previousStatusRef refs' = animationStatus.
Proof.
  intros animationStatus inputs facing.
  induction inputs as [|[cs delta] inputs IH]; intros refs Hstatus.
  - exists refs. simpl. repeat split. exact Hstatus.
  - destruct (scene_useFrameIn_result Scene.SPRITE_MAP cs animationStatus delta
                refs) as (i & e & Hclock & Hframe).
    rewrite <- Hstatus, scene_handleStatusChange_same, Hstatus in Hclock.
    fold Scene.getSequence in Hclock.
    rewrite (scene_getSequence_direction _ facing) in Hclock.
    fold Scene.useFrame in Hframe.
    destruct (IH (Scene.mkRefs (updateDirection cs (Scene.directionRef refs))
                    e i animationStatus) eq_refl)
      as (refs' & Hrun & Hclocks & Hstatus').
    exists refs'. simpl. rewrite Hframe, Hclock.
    split; [exact Hrun|]. split; [exact Hclocks | exact Hstatus'].
Qed.

Lemma useFrames_follows_frame_clock_witness :
  exists refs',
    Scene.useFrames WALK
      [(mkCharacterStatus (mkVector3 1 0 0) (mkVector3 0 0 0), 0.13);
       (mkCharacterStatus (mkVector3 0 0 (-1)) (mkVector3 0 0 0), 0.13);
       (mkCharacterStatus (mkVector3 0 0 0) (mkVector3 (-1) 0 0), 0.13)]
      (Scene.initialRefs WALK) = Some refs' /\
    Scene.advanceFrames (Scene.getSequence south WALK) [0.13; 0.13; 0.13]
      0%nat 0 = Some (Scene.frameIndexRef refs', Scene.elapsedRef refs') /\
    Scene.directionRef refs' = west.
Proof.
  destruct (useFrames_follows_frame_clock WALK
              [(mkCharacterStatus (mkVector3 1 0 0) (mkVector3 0 0 0), 0.13);
               (mkCharacterStatus (mkVector3 0 0 (-1)) (mkVector3 0 0 0), 0.13);
               (mkCharacterStatus (mkVector3 0 0 0) (mkVector3 (-1) 0 0), 0.13)]
              south (Scene.initialRefs WALK) eq_refl)
    as (refs' & Hrun & Hclock & _).
  exists refs'. split; [exact Hrun|]. split; [exact Hclock|].
  vm_compute in Hrun. injection Hrun as <-. reflexivity.
Defined.

(** * Properties of the scene helpers *)

(** ** [useFollowCamera] *)

(** X12: the scene's follow-camera callback calls [moveTo] exactly when the
    camera controls are mounted and the controller is mounted with a group;
    the call is then to the group's position raised by 0.3, with the
    transition enabled.  With a missing ref it makes no call, and a disabled
    hook never makes one. *)
Theorem sceneFollowFrame_tracks_group :
  forall (CameraControls : Type) (cameraControlsRef : option CameraControls)
         (controllerRef : option FollowCamera.BVHEcctrlApi),
    (forall call,
        FollowCamera.sceneFollowFrame CameraControls cameraControlsRef
          controllerRef = Some call <->
        exists controls api group,
          cameraControlsRef = Some controls /\ controllerRef = Some api /\
          FollowCamera.group api = Some group /\
          call =
            FollowCamera.mkMoveTo
              (x (FollowCamera.position group) + 0)
              (y (FollowCamera.position group) + 0.3)
              (z (FollowCamera.position group) + 0) true) /\
    (FollowCamera.sceneFollowFrame CameraControls cameraControlsRef
       controllerRef = None <->
     cameraControlsRef = None \/ controllerRef = None \/
     exists api, controllerRef = Some api /\ FollowCamera.group api = None) /\
    (forall offset target,
        FollowCamera.followFrame CameraControls false offset cameraControlsRef
          target = None).
Proof.
  intros CameraControls cameraControlsRef controllerRef.
  unfold FollowCamera.sceneFollowFrame, FollowCamera.followFrame,
    FollowCamera.resolveTarget.
  split; [|split].
  - intros call. split.
    + destruct cameraControlsRef as [controls|]; [|discriminate].
      destruct controllerRef as [api|]; [|discriminate].
      destruct (FollowCamera.group api) as [group|] eqn:Hgroup; [|discriminate].
      simpl. intros Hcall. injection Hcall as <-.
      exists controls, api, group. repeat split. exact Hgroup.
    + intros (controls & api & group & -> & -> & Hgroup & ->).
      rewrite Hgroup. reflexivity.
  - split.
    + destruct cameraControlsRef as [controls|]; [|intros _; left; reflexivity].
      destruct controllerRef as [api|];
        [|intros _; right; left; reflexivity].
      destruct (FollowCamera.group api) as [group|] eqn:Hgroup;
        [discriminate|].
      intros _. right; right. exists api. split; [reflexivity | exact Hgroup].
    + intros [-> | [-> | (api & -> & Hgroup)]].
      * reflexivity.
      * destruct cameraControlsRef; reflexivity.
      * rewrite Hgroup. destruct cameraControlsRef; reflexivity.
  - intros offset target. reflexivity.
Qed.

Lemma sceneFollowFrame_tracks_group_witness :
  FollowCamera.sceneFollowFrame unit (Some tt)
    (Some (FollowCamera.mkApi
             (Some (FollowCamera.mkGroup (mkVector3 2 0.5 (-1)))))) =
  Some (FollowCamera.mkMoveTo (2 + 0) (0.5 + 0.3) (-1 + 0) true).
Proof.
  destruct (sceneFollowFrame_tracks_group unit (Some tt)
              (Some (FollowCamera.mkApi
                       (Some (FollowCamera.mkGroup (mkVector3 2 0.5 (-1)))))))
    as (Hcall & _).
  apply Hcall. eexists _, _, _. repeat split.
Defined.

(** ** [CozyTavernMap] *)

(** Induction over a scene graph, with the property known of the children. *)
Lemma Object3D_children_ind (P : TavernMap.Object3D -> Prop) :
  (forall isMesh castShadow receiveShadow children,
      Forall P children ->
      P (TavernMap.mkObject isMesh castShadow receiveShadow children)) ->
  forall object, P object.
Proof.
  intros Hnode.
  fix self 1. intros [isMesh castShadow receiveShadow children].
  apply Hnode.
  induction children as [|child children IH]; constructor.
  - apply self.
  - exact IH.
Qed.

(** X13: after the traversal every mesh of the loaded scene, at any depth,
    casts and receives shadows; nothing else changes (the tree, which
    objects are meshes, the flags of the other objects); and a second
    traversal changes nothing. *)
Theorem enableShadows_only_sets_mesh_shadows :
  forall scene : TavernMap.Object3D,
    TavernMap.meshesShadowed (TavernMap.enableShadows scene) = true /\
    TavernMap.withoutMeshShadows (TavernMap.enableShadows scene) =
      TavernMap.withoutMeshShadows scene /\
    TavernMap.enableShadows (TavernMap.enableShadows scene) =
      TavernMap.enableShadows scene.
Proof.
  induction scene as [isMesh castShadow receiveShadow children IH]
    using Object3D_children_ind.
  simpl. rewrite !map_map. split; [|split].
  - apply andb_true_iff. split; [destruct isMesh; reflexivity|].
    apply forallb_forall. intros object Hin.
    apply in_map_iff in Hin. destruct Hin as (child & <- & Hin).
    rewrite Forall_forall in IH. apply (IH child Hin).
  - f_equal; try (destruct isMesh; reflexivity).
    apply map_ext_in. intros child Hin.
    rewrite Forall_forall in IH. apply (IH child Hin).
  - f_equal; try (destruct isMesh; reflexivity).
    apply map_ext_in. intros child Hin.
    rewrite Forall_forall in IH. apply (IH child Hin).
Qed.

Lemma enableShadows_only_sets_mesh_shadows_example :
  TavernMap.enableShadows
    (TavernMap.mkObject false false false
       [TavernMap.mkObject true false true [];
        TavernMap.mkObject false true false
          [TavernMap.mkObject true false false []]]) =
  TavernMap.mkObject false false false
    [TavernMap.mkObject true true true [];
     TavernMap.mkObject false true false
       [TavernMap.mkObject true true true []]].
Proof. reflexivity. Qed.

(** ** [config-overrides.js] *)

Section OverrideProperties.

Variables ResolveRest ModuleRest ConfigRest RuleSetRule : Type.
Variable emptyResolveRest : ResolveRest.
Variable emptyModuleRest : ModuleRest.

Abbreviation Config :=
  (ConfigOverrides.Config ResolveRest ModuleRest ConfigRest RuleSetRule).
Abbreviation override :=
  (ConfigOverrides.override ResolveRest ModuleRest ConfigRest RuleSetRule
     emptyResolveRest emptyModuleRest).
Abbreviation rulesOf :=
  (ConfigOverrides.rulesOf ResolveRest ModuleRest ConfigRest RuleSetRule).
Abbreviation relaxEsmRule := (ConfigOverrides.relaxEsmRule RuleSetRule).

(** X14: [override] returns for every configuration, whether [resolve],
    [module] and [module.rules] are there or not.  In the configuration it
    returns, the rules are the rules it was given, in their order, followed
    by the one new rule; [resolve.fullySpecified] is [false] and the rest of
    [resolve] is as given; [ignoreWarnings] holds the two source-map
    entries, whatever it held before; the other fields are as given. *)
Theorem override_appends_rule_and_keeps_the_rest :
  forall config : Config,
    exists config' resolve' module',
      override config = Some config' /\
      rulesOf config' = rulesOf config ++ [relaxEsmRule] /\
      ConfigOverrides.resolve _ _ _ _ config' = Some resolve' /\
      ConfigOverrides.fullySpecified _ resolve' = Some false /\
      ConfigOverrides.resolveRest _ resolve' =
        match ConfigOverrides.resolve _ _ _ _ config with
        | Some given => ConfigOverrides.resolveRest _ given
        | None => emptyResolveRest
        end /\
      ConfigOverrides.module _ _ _ _ config' = Some module' /\
      ConfigOverrides.moduleRest _ _ module' =
        match ConfigOverrides.module _ _ _ _ config with
        | Some given => ConfigOverrides.moduleRest _ _ given
        | None => emptyModuleRest
        end /\
      ConfigOverrides.ignoreWarnings _ _ _ _ config' =
        Some ConfigOverrides.sourceMapWarnings /\
      ConfigOverrides.configRest _ _ _ _ config' =
        ConfigOverrides.configRest _ _ _ _ config.
Proof.
  intros [resolve module ignoreWarnings configRest].
  unfold ConfigOverrides.override, ConfigOverrides.rulesOf.
  destruct resolve as [[fullySpecified resolveRest]|];
    destruct module as [[[rules|] moduleRest]|]; simpl;
    eexists _, _, _; repeat split.
Qed.

(** X15: [override] is not idempotent.  A second call on the configuration
    the first returned pushes the rule once more, so the rules end with two
    copies of it; [resolve], [ignoreWarnings] and the other fields are what
    the first call left. *)
Theorem override_twice_pushes_twice :
  forall config config1 : Config,
    override config = Some config1 ->
    exists config2,
      override config1 = Some config2 /\
      rulesOf config2 = rulesOf config ++ [relaxEsmRule; relaxEsmRule] /\
      config2 <> config1 /\
      ConfigOverrides.resolve _ _ _ _ config2 =
        ConfigOverrides.resolve _ _ _ _ config1 /\
      ConfigOverrides.ignoreWarnings _ _ _ _ config2 =
        ConfigOverrides.ignoreWarnings _ _ _ _ config1 /\
      ConfigOverrides.configRest _ _ _ _ config2 =
        ConfigOverrides.configRest _ _ _ _ config1.
Proof.
  intros config config1 Hfirst.
  destruct (override_appends_rule_and_keeps_the_rest config)
    as (c1 & r1 & m1 & Hrun1 & Hrules1 & Hres1 & Hfs1 & _ & _ & _ & Hw1 & _).
  rewrite Hfirst in Hrun1. injection Hrun1 as <-.
  destruct (override_appends_rule_and_keeps_the_rest config1)
    as (c2 & r2 & m2 & Hrun2 & Hrules2 & Hres2 & Hfs2 & Hrest2 & _ & _ & Hw2
        & Hcr2).
  exists c2. split; [exact Hrun2|].
  assert (Hrules : rulesOf c2 = rulesOf config ++ [relaxEsmRule; relaxEsmRule]).
  { rewrite Hrules2, Hrules1, <- app_assoc. reflexivity. }
  split; [exact Hrules|]. split.
  - intros Heq. rewrite Heq, Hrules1 in Hrules.
    apply (f_equal (@length _)) in Hrules.
    rewrite !length_app in Hrules. simpl in Hrules. lia.
  - split; [|split; [congruence | exact Hcr2]].
    rewrite Hres2, Hres1. f_equal.
    rewrite Hres1 in Hrest2.
    destruct r1 as [fs1 rest1], r2 as [fs2 rest2]. simpl in *. congruence.
Qed.

End OverrideProperties.

Lemma override_twice_pushes_twice_witness :
  exists config2,
    ConfigOverrides.override unit unit unit nat tt tt
      (ConfigOverrides.mkConfig unit unit unit nat
         (Some (ConfigOverrides.mkResolve unit (Some false) tt))
         (Some (ConfigOverrides.mkModuleOptions unit nat
                  (Some [ConfigOverrides.configRule nat 7%nat;
                         ConfigOverrides.relaxEsmRule nat]) tt))
         (Some ConfigOverrides.sourceMapWarnings) tt) = Some config2 /\
    ConfigOverrides.rulesOf unit unit unit nat config2 =
      [ConfigOverrides.configRule nat 7%nat] ++
      [ConfigOverrides.relaxEsmRule nat; ConfigOverrides.relaxEsmRule nat].
Proof.
  destruct (override_twice_pushes_twice unit unit unit nat tt tt
              (ConfigOverrides.mkConfig unit unit unit nat None
                 (Some (ConfigOverrides.mkModuleOptions unit nat
                          (Some [ConfigOverrides.configRule nat 7%nat]) tt))
                 None tt)
              (ConfigOverrides.mkConfig unit unit unit nat
                 (Some (ConfigOverrides.mkResolve unit (Some false) tt))
                 (Some (ConfigOverrides.mkModuleOptions unit nat
                          (Some [ConfigOverrides.configRule nat 7%nat;
                                 ConfigOverrides.relaxEsmRule nat]) tt))
                 (Some ConfigOverrides.sourceMapWarnings) tt) eq_refl)
    as (config2 & Hrun & Hrules & _).
  exists config2. split; [exact Hrun | exact Hrules].
Defined.
